(** * predict.py: LoRA acquisition and composition around a diffusion pipeline

    A shallow embedding of [src/predict.py].  Python values are modelled as
    follows.

    - A [str] is a [string]; one [ascii] stands for one character (code
      points below 256, which covers every literal of the program).
    - A [list] is a [list]; [None]-able arguments are [option]s.
    - A [float] that the program only stores and passes on (the LoRA scales,
      the guidance scale, the prompt strength) is a [Q]: no arithmetic is
      ever done on it.
    - A raised exception is a value of [exn]; code that can raise returns a
      [result].
    - The third-party pipeline objects are modelled by the chronological log
      of the calls the program makes on them; what a call answers, where the
      program depends on it, is a parameter of the model. *)

From Stdlib Require Import ZArith QArith Ascii String DecimalString DecimalNat List Bool Lia Sorted.
From stdpp Require Import gmap strings list.

Set Default Proof Using "Type".

(** ** Python strings *)

Module PyStr.

Definition ord (c : ascii) : N := N_of_ascii c.

Definition in_range (lo hi : N) (c : ascii) : bool :=
  ((lo <=? ord c) && (ord c <=? hi))%N.

(** [str.isspace] on one character, restricted to code points below 256:
    TAB..CR, FS..US, SPACE, NEL and NBSP. *)
Definition isspace (c : ascii) : bool :=
  in_range 9 13 c || in_range 28 32 c || (ord c =? 133)%N || (ord c =? 160)%N.

Definition is_empty (s : string) : bool :=
  match s with EmptyString => true | String _ _ => false end.

(** The scanning loop of [str.split()] without arguments: [word] is the
    word being read, [s] what is left of the input. *)
Fixpoint split_go (word s : string) : list string :=
  match s with
  | EmptyString => if is_empty word then [] else [word]
  | String c s' =>
      if isspace c
      then (if is_empty word then split_go "" s' else word :: split_go "" s')
      else split_go (word +:+ String c "") s'
  end.

(** [s.split()] *)
Definition split (s : string) : list string := split_go "" s.

(** [sep.join(ws)] *)
Fixpoint join (sep : string) (ws : list string) : string :=
  match ws with
  | [] => ""
  | w :: ws' =>
      match ws' with
      | [] => w
      | _ :: _ => w +:+ sep +:+ join sep ws'
      end
  end.

(** [l[:n]] for a Python integer [n] (a negative [n] counts from the end). *)
Definition slice_to {A} (l : list A) (n : Z) : list A :=
  if (0 <=? n)%Z then take (Z.to_nat n) l
  else take (length l - Z.to_nat (- n)) l.

(** [s.startswith(p)], returning what follows the prefix. *)
Fixpoint strip_prefix (p s : string) : option string :=
  match p with
  | EmptyString => Some s
  | String a p' =>
      match s with
      | EmptyString => None
      | String b s' => if Ascii.eqb a b then strip_prefix p' s' else None
      end
  end.

Definition startswith (s p : string) : bool :=
  match strip_prefix p s with Some _ => true | None => false end.

(** [s.endswith(p)] *)
Definition endswith (s p : string) : bool :=
  let n := String.length s in
  let m := String.length p in
  (m <=? n)%nat && String.eqb (String.substring (n - m) m s) p.

(** [s.split(sep)[-1]] for a one-character separator: what follows the
    last occurrence of [sep], or all of [s] when there is none.  [field]
    is the field being read. *)
Fixpoint last_field_go (sep : ascii) (field s : string) : string :=
  match s with
  | EmptyString => field
  | String c s' =>
      if Ascii.eqb c sep then last_field_go sep "" s'
      else last_field_go sep (field +:+ String c "") s'
  end.

Definition last_field (sep : ascii) (s : string) : string :=
  last_field_go sep "" s.

(** [needle in hay] *)
Fixpoint contains (needle hay : string) : bool :=
  startswith hay needle ||
  match hay with
  | EmptyString => false
  | String _ hay' => contains needle hay'
  end.

(** [str(i)] for a non-negative integer. *)
Definition of_nat (i : nat) : string :=
  DecimalString.NilZero.string_of_uint (Nat.to_uint i).

End PyStr.

(** ** Regular expressions

    The fragment of Python's [re] syntax that the program uses, with a
    backtracking matcher that tries alternatives in the order [re] does
    (greedy first).  [.] is any character but a newline; [$] holds at the
    end of the string and just before a final newline. *)

Module Re.
Import PyStr.

Inductive re :=
| Lit (p : string)                 (* literal characters *)
| Dot                              (* [.] *)
| OptChr (c : ascii)               (* [c?] *)
| PlusCls (cls : ascii -> bool)    (* [[...]+] *)
| Dollar                           (* [$] *)
| Seq (r1 r2 : re).

Infix ";;;" := Seq (at level 60, right associativity).

Definition newline : ascii := ascii_of_N 10.

Definition at_dollar (s : string) : bool :=
  match s with
  | EmptyString => true
  | String c EmptyString => Ascii.eqb c newline
  | String _ (String _ _) => false
  end.

Definition orelse {A} (x y : option A) : option A :=
  match x with Some a => Some a | None => y end.

(** [run r s k]: match [r] at the start of [s] and hand what is left to the
    continuation [k]; the first path on which [k] succeeds wins. *)
Fixpoint run {A} (r : re) (s : string) (k : string -> option A) : option A :=
  match r with
  | Lit p => match strip_prefix p s with Some s' => k s' | None => None end
  | Dot =>
      match s with
      | EmptyString => None
      | String c s' => if Ascii.eqb c newline then None else k s'
      end
  | OptChr a =>
      match s with
      | EmptyString => k s
      | String c s' => if Ascii.eqb c a then orelse (k s') (k s) else k s
      end
  | PlusCls cls =>
      (fix more (t : string) : option A :=
         match t with
         | EmptyString => None
         | String c t' => if cls c then orelse (more t') (k t') else None
         end) s
  | Dollar => if at_dollar s then k s else None
  | Seq r1 r2 => run r1 s (fun s' => run r2 s' k)
  end.

(** Truth value of [re.match(r, s)] for a pattern that starts with [^]. *)
Definition matches (r : re) (s : string) : bool :=
  match run r s (fun _ => Some tt) with Some _ => true | None => false end.

(** [re.search(prefix + "(" + group + ")", s).group(1)] for a pattern that
    starts with [^]; [None] when there is no match. *)
Definition group1 (prefix group : re) (s : string) : option string :=
  match run prefix s (fun s1 => run group s1 (fun s2 => Some (s1, s2))) with
  | Some (s1, s2) =>
      Some (String.substring 0 (String.length s1 - String.length s2) s1)
  | None => None
  end.

(** [[a-zA-Z0-9_-]] *)
Definition slug_char (c : ascii) : bool :=
  in_range 97 122 c || in_range 65 90 c || in_range 48 57 c
  || Ascii.eqb c "_" || Ascii.eqb c "-".

(** [[0-9]] *)
Definition digit (c : ascii) : bool := in_range 48 57 c.

(** [https?://] *)
Definition scheme : re := Lit "http" ;;; OptChr "s" ;;; Lit "://".

(** [^[a-zA-Z0-9_-]+/[a-zA-Z0-9_-]+$] *)
Definition SLUG : re :=
  PlusCls slug_char ;;; Lit "/" ;;; PlusCls slug_char ;;; Dollar.

(** [^https?://replicate.delivery/[a-zA-Z0-9_-]+/[a-zA-Z0-9_-]+/trained_model.tar] *)
Definition REPLICATE : re :=
  scheme ;;; Lit "replicate" ;;; Dot ;;; Lit "delivery/" ;;;
  PlusCls slug_char ;;; Lit "/" ;;; PlusCls slug_char ;;;
  Lit "/trained_model" ;;; Dot ;;; Lit "tar".

(** [^https?://huggingface.co] *)
Definition HF_URL : re := scheme ;;; Lit "huggingface" ;;; Dot ;;; Lit "co".

(** [^https?://huggingface.co/([a-zA-Z0-9_-]+/[a-zA-Z0-9_-]+)] *)
Definition HF_URL_SLUG_PREFIX : re := HF_URL ;;; Lit "/".
Definition HF_URL_SLUG_GROUP : re :=
  PlusCls slug_char ;;; Lit "/" ;;; PlusCls slug_char.

(** [^https?://civitai.com/api/download/models/[0-9]+\?type=Model&format=SafeTensor] *)
Definition CIVITAI : re :=
  scheme ;;; Lit "civitai" ;;; Dot ;;; Lit "com/api/download/models/" ;;;
  PlusCls digit ;;; Lit "?type=Model&format=SafeTensor".

End Re.

(** ** Module-level functions and constants of predict.py *)

(** [truncate_prompt(prompt, max_tokens=75)] *)
Definition truncate_prompt (prompt : string) (max_tokens : Z) : string :=
  let words := PyStr.split prompt in
  if (Z.of_nat (length words) <=? max_tokens)%Z then prompt
  else PyStr.join " " (PyStr.slice_to words max_tokens).

Definition MAX_IMAGE_SIZE : Z := 1440.

Definition ASPECT_RATIOS : gmap string (Z * Z) :=
  list_to_map
    [ ("1:1", (1024, 1024)); ("16:9", (1344, 768)); ("21:9", (1536, 640));
      ("3:2", (1216, 832)); ("2:3", (832, 1216)); ("4:5", (896, 1088));
      ("5:4", (1088, 896)); ("3:4", (896, 1152)); ("4:3", (1152, 896));
      ("9:16", (768, 1344)); ("9:21", (640, 1536)) ]%Z.

Definition MODEL_CACHE : string := "cyberrealistic-pony".
Definition SAFETY_CACHE : string := "safety-cache".
Definition SAFETY_URL : string :=
  "https://weights.replicate.delivery/default/sdxl/safety-1.0.tar".

(** [Predictor.make_multiple_of_16] ([//] rounds down, as [Z.div] does). *)
Definition make_multiple_of_16 (n : Z) : Z := ((n + 15) / 16 * 16)%Z.

(** ** Exceptions and the state-and-exception monad *)

Inductive exn :=
| Exception (msg : string)          (* a plain [Exception] *)
| RuntimeError (msg : string)       (* [RuntimeError] or a subclass *)
| IndexError (msg : string)
| KeyError (msg : string)
| AttributeError (msg : string)
| OtherError (cls msg : string)     (* any other subclass of [Exception] *)
| Interrupt (cls : string).         (* [BaseException] outside [Exception] *)

(** What [except Exception] catches. *)
Definition is_Exception (e : exn) : bool :=
  match e with Interrupt _ => false | _ => true end.

Inductive result (A : Type) :=
| Ok (a : A)
| Raise (e : exn).
Arguments Ok {A} a.
Arguments Raise {A} e.

(** A computation over a mutable state [S] that returns or raises; the
    state reached when an exception leaves is kept. *)
Definition St (S A : Type) : Type := S -> result A * S.

Global Instance St_ret {S} : MRet (St S) := fun A a st => (Ok a, st).

Global Instance St_bind {S} : MBind (St S) := fun A B f m st =>
  match m st with
  | (Ok a, st') => f a st'
  | (Raise e, st') => (Raise e, st')
  end.

Definition raise {S A} (e : exn) : St S A := fun st => (Raise e, st).

Definition lift {S A} (r : result A) : St S A := fun st => (r, st).

Definition get {S} : St S S := fun st => (Ok st, st).

Definition modify {S} (f : S -> S) : St S unit := fun st => (Ok tt, f st).

(** [l[i]] for [0 <= i]. *)
Definition index {S A} (l : list A) (i : nat) : St S A :=
  match l !! i with
  | Some x => mret x
  | None => raise (IndexError "list index out of range")
  end.

(** ** The predictor and its collaborators *)

(** The two pipeline objects built by [setup]; they share their components. *)
Inductive pipe := txt2img_pipe | img2img_pipe.

(** An image produced by the pipeline, and a prepared input tensor; both are
    opaque to the program. *)
Inductive image := Image (id : nat).
Inductive tensor := Tensor (path : string).

(** [**common_args, **flux_kwargs] *)
Record pipe_args := {
  arg_prompt : list string;
  arg_guidance_scale : Q;
  arg_seed : Z;
  arg_num_inference_steps : Z;
  arg_width : Z;
  arg_height : Z;
  arg_image : option tensor;
  arg_strength : option Q;
  arg_joint_attention_kwargs : option Q   (* [{"scale": s}] or [None] *)
}.

(** The calls the program makes on the pipelines and on the images. *)
Inductive call :=
| load_lora_weights (p : pipe) (src : string) (weight_name adapter_name : option string)
| unload_lora_weights (p : pipe)
| set_adapters (p : pipe) (adapter_names : list string) (adapter_weights : list Q)
| to_cuda (p : pipe)
| set_attn_processor (p : pipe)     (* [pipe.unet.set_attn_processor(AttnProcessor2_0())] *)
| run (p : pipe) (args : pipe_args) (* the pipeline call itself *)
| save (path : string) (img : image) (quality : option Z).

(** [self.last_loaded_loras]: the empty dict of [setup], or the list kept by
    [load_loras]. *)
Inductive loaded :=
| EmptyDict
| Loaded (hf_loras : list string).

Global Instance loaded_eq_dec : EqDecision loaded.
Proof. solve_decision. Defined.

Record Predictor := {
  last_loaded_loras : loaded;
  calls : list call                  (* oldest first *)
}.

(** What the collaborators answer.  [ensure] is
    [WeightsDownloadCache.ensure(url, file=False)] of [weights.py], which
    returns a local path; [activate] is the outcome of
    [pipe.set_adapters(adapter_names, adapter_weights=...)], which depends on
    the adapters that the calls made before have registered; [infer] is the
    pipeline call, whose outcome may depend on the calls made before; [nsfw]
    is the [has_nsfw_concept] list of the safety checker; [get_image] opens
    and resizes the input image.  The other calls made only for their effect
    ([load_lora_weights], [unload_lora_weights], [to], [set_attn_processor],
    [save]) are taken to return. *)
Record World := {
  ensure : string -> bool -> result string;
  activate : list call -> pipe -> list string -> list Q -> result unit;
  infer : list call -> pipe -> pipe_args -> result (list image);
  nsfw : list image -> list bool;
  get_image : string -> result tensor;
  urandom : Z
}.

Definition emit (c : call) : St Predictor unit :=
  modify (fun st => {| last_loaded_loras := last_loaded_loras st;
                       calls := calls st ++ [c] |}).

Definition set_last_loaded_loras (l : list string) : St Predictor unit :=
  modify (fun st => {| last_loaded_loras := Loaded l; calls := calls st |}).

(** State of the predictor after [setup], as far as [predict] reads it. *)
Definition setup : Predictor := {| last_loaded_loras := EmptyDict; calls := [] |}.

(** [os.path.join(a, b)] *)
Definition path_join (a b : string) : string :=
  if PyStr.startswith b "/" then b
  else if PyStr.is_empty a || PyStr.endswith a "/" then a +:+ b
  else a +:+ "/" +:+ b.

(** [Predictor.aspect_ratio_to_width_height] *)
Definition aspect_ratio_to_width_height (aspect_ratio : string) : St Predictor (Z * Z) :=
  match ASPECT_RATIOS !! aspect_ratio with
  | Some wh => mret wh
  | None => raise (KeyError aspect_ratio)
  end.

(** ** Predictor.load_loras *)

(** The pool of adapter names. *)
Definition names : list string :=
  ["a"; "b"; "c"; "d"; "e"; "f"; "g"; "h"; "i"; "j"; "k"; "l"; "m";
   "n"; "o"; "p"; "q"; "r"; "s"; "t"; "u"; "v"; "w"; "x"; "y"; "z"].

Definition INVALID_LORA : string :=
  "Invalid lora, must be either a: HuggingFace path, Replicate model.tar, or a URL to a .safetensors file: ".

Definition REPLICATE_LORA_FILE : string :=
  "output/flux_train_replicate/lora.safetensors".

(** Body of the loop of [load_loras] for one identifier: [count] is the slot
    counter on entry, the result is the counter on exit. *)
Definition load_one (w : World) (count : nat) (hf_lora : string) : St Predictor nat :=
  if Re.matches Re.SLUG hf_lora then
    adapter_name ← index names count;
    emit (load_lora_weights txt2img_pipe hf_lora None (Some adapter_name));;
    mret (S count)
  else if Re.matches Re.REPLICATE hf_lora then
    local_weights_cache ← lift (ensure w hf_lora false);
    let lora_path := path_join local_weights_cache REPLICATE_LORA_FILE in
    adapter_name ← index names count;
    emit (load_lora_weights txt2img_pipe lora_path None (Some adapter_name));;
    mret (S count)
  else if Re.matches Re.HF_URL hf_lora then
    huggingface_slug ←
      match Re.group1 Re.HF_URL_SLUG_PREFIX Re.HF_URL_SLUG_GROUP hf_lora with
      | Some g => mret g
      | None => raise (AttributeError "'NoneType' object has no attribute 'group'")
      end;
    let weight_name := PyStr.last_field "/" hf_lora in
    adapter_name ← index names count;
    (* [adapter_name] is computed but not handed to the call *)
    emit (load_lora_weights txt2img_pipe huggingface_slug (Some weight_name) None);;
    mret (S count)
  else if Re.matches Re.CIVITAI hf_lora then
    lora_path ← lift (ensure w hf_lora true);
    adapter_name ← index names count;
    emit (load_lora_weights txt2img_pipe lora_path None (Some adapter_name));;
    mret (S count)
  else if PyStr.endswith hf_lora ".safetensors" then
    match ensure w hf_lora true with
    | Raise e =>
        if is_Exception e then mret count   (* [continue] *)
        else raise e
    | Ok lora_path =>
        adapter_name ← index names count;
        emit (load_lora_weights txt2img_pipe lora_path None (Some adapter_name));;
        mret (S count)
    end
  else raise (Exception (INVALID_LORA +:+ hf_lora)).

(** The [for hf_lora in hf_loras] loop. *)
Fixpoint load_each (w : World) (count : nat) (hf_loras : list string) : St Predictor nat :=
  match hf_loras with
  | [] => mret count
  | hf_lora :: rest =>
      count' ← load_one w count hf_lora;
      load_each w count' rest
  end.

(** [pipe.set_adapters(adapter_names, adapter_weights=adapter_weights)]:
    logged, then answered by the world from the calls made before it. *)
Definition call_set_adapters (w : World) (p : pipe)
    (adapter_names : list string) (adapter_weights : list Q) : St Predictor unit :=
  st ← get;
  emit (set_adapters p adapter_names adapter_weights);;
  lift (activate w (calls st) p adapter_names adapter_weights).

(** The list is stored (line 297) before [set_adapters] is called (line
    298). *)
Definition load_loras (w : World) (hf_loras : list string) (lora_scales : list Q)
  : St Predictor unit :=
  count ← load_each w 0 hf_loras;
  let adapter_names := take count names in
  let adapter_weights := take count lora_scales in
  set_last_loaded_loras hf_loras;;
  call_set_adapters w txt2img_pipe adapter_names adapter_weights.

(** ** Predictor.predict *)

Record Inputs := {
  prompt : string;
  aspect_ratio : string;
  input_image : option string;
  prompt_strength : Q;
  num_outputs : Z;
  num_inference_steps : Z;
  guidance_scale : Q;
  seed : option Z;
  output_format : string;
  output_quality : Z;
  hf_loras : option (list string);
  lora_scales : option (list Q);
  disable_safety_checker : bool
}.

Definition DEFAULT_LORA_SCALE : Q := 8 # 10.

(** Lines 403-422: bring the loaded LoRAs in line with the request; returns
    [flux_kwargs["joint_attention_kwargs"]]. *)
Definition apply_loras (w : World) (p : pipe)
    (hf_loras : option (list string)) (lora_scales : option (list Q))
  : St Predictor (option Q) :=
  match hf_loras with
  | Some (x :: xs) =>
      let hf_loras := x :: xs in
      st ← get;
      (if bool_decide (Loaded hf_loras ≠ last_loaded_loras st) then
         emit (unload_lora_weights p);;
         match lora_scales with
         | None | Some [] =>
             load_loras w hf_loras (replicate (length hf_loras) DEFAULT_LORA_SCALE)
         | Some [scale] =>
             load_loras w hf_loras (replicate (length hf_loras) scale)
         | Some scales =>
             if (length hf_loras <=? length scales)%nat
             then load_loras w hf_loras scales
             else mret ()
         end
       else mret ());;
      mret (Some 1%Q)
  | _ =>
      emit (unload_lora_weights p);;
      mret None
  end.

Definition MAT_SHAPES : string := "mat1 and mat2 shapes cannot be multiplied".

(** One call of the pipeline: logged, then answered by the world from the
    calls made before it. *)
Definition call_pipe (w : World) (p : pipe) (args : pipe_args) : St Predictor (list image) :=
  st ← get;
  emit (run p args);;
  lift (infer w (calls st) p args).

(** Lines 438-460: inference inside [try .. except RuntimeError]. *)
Definition run_inference (w : World) (p : pipe) (args : pipe_args)
  : St Predictor (list image) := fun st =>
  match call_pipe w p args st with
  | (Raise (RuntimeError msg), st') =>
      if PyStr.contains MAT_SHAPES msg
      then (emit (set_attn_processor p);; call_pipe w p args) st'
      else (Raise (RuntimeError msg), st')
  | other => other
  end.

Definition output_path (i : nat) (output_format : string) : string :=
  "/tmp/out-" +:+ PyStr.of_nat i +:+ "." +:+ output_format.

(** Lines 466-475: the loop over [enumerate(output.images)].
    [has_nsfw_content] is read only when the checker is enabled. *)
Fixpoint save_each (disable_safety_checker : bool) (has_nsfw_content : list bool)
    (output_format : string) (output_quality : Z)
    (i : nat) (images : list image) (output_paths : list string)
  : St Predictor (list string) :=
  match images with
  | [] => mret output_paths
  | img :: rest =>
      flagged ← (if disable_safety_checker then mret false
                 else index has_nsfw_content i);
      if flagged : bool then
        save_each disable_safety_checker has_nsfw_content output_format
                  output_quality (S i) rest output_paths
      else
        let path := output_path i output_format in
        emit (save path img
                (if String.eqb output_format "png" then None else Some output_quality));;
        save_each disable_safety_checker has_nsfw_content output_format
                  output_quality (S i) rest (output_paths ++ [path])
  end.

Definition NSFW_MESSAGE : string :=
  "NSFW content detected. Try running it again, or try a different prompt.".

(** Lines 462-480: filter, save, and return the paths. *)
Definition save_outputs (w : World) (inp : Inputs) (images : list image)
  : St Predictor (list string) :=
  let has_nsfw_content :=
    if disable_safety_checker inp then [] else nsfw w images in
  output_paths ← save_each (disable_safety_checker inp) has_nsfw_content
                   (output_format inp) (output_quality inp) 0 images [];
  if (length output_paths =? 0)%nat then raise (Exception NSFW_MESSAGE)
  else mret output_paths.

(** Lines 357-460: everything up to and including inference. *)
Definition generate (w : World) (inp : Inputs) : St Predictor (list image) :=
  let seed := default (urandom w) (seed inp) in
  let prompt := truncate_prompt (prompt inp) 75 in
  '(width, height) ← aspect_ratio_to_width_height (aspect_ratio inp);
  '(p, init_image) ←
     match input_image inp with
     | Some path =>
         t ← lift (get_image w path);
         mret (img2img_pipe, Some t)
     | None => mret (txt2img_pipe, None)
     end;
  joint_attention_kwargs ← apply_loras w p (hf_loras inp) (lora_scales inp);
  emit (to_cuda p);;
  let args :=
    {| arg_prompt := replicate (Z.to_nat (num_outputs inp)) prompt;
       arg_guidance_scale := guidance_scale inp;
       arg_seed := seed;
       arg_num_inference_steps := num_inference_steps inp;
       arg_width := width;
       arg_height := height;
       arg_image := init_image;
       arg_strength := match init_image with
                       | Some _ => Some (prompt_strength inp)
                       | None => None
                       end;
       arg_joint_attention_kwargs := joint_attention_kwargs |} in
  run_inference w p args.

Definition predict (w : World) (inp : Inputs) : St Predictor (list string) :=
  images ← generate w inp;
  save_outputs w inp images.

(** ** download_weights

    The file system is a map from the paths of the regular files to their
    contents and a set of directories.  A path is known by its spelling: the
    model has no links and no [.] or [..] components.  The working directory
    and the root exist; they are the directories that [dirname] names by the
    empty string and by a string of separators.  Writing to an open file is
    taken to succeed.  The network and the archive reader are answered by
    [Net]. *)

Definition bytes := list Byte.byte.

Record FS := {
  files : gmap string bytes;
  dirs : gset string
}.

(** [http_get url] is the outcome of [requests.get(url, stream=True)]: the
    exception it raises, or the response, that is the chunks that
    [iter_content(chunk_size=8192)] yields and the exception that breaks the
    stream, if any.  [tmp_name] is the fresh name that
    [NamedTemporaryFile(suffix=".tar", delete=False)] picks, or the exception
    it raises.  [untar] gives the regular members (name, content) that
    [tarfile] reads from an archive, in order, and the exception that ends
    the reading, if any: at once, with no member, when the bytes are no
    archive. *)
Record Net := {
  http_get : string -> result (list bytes * option exn);
  tmp_name : result string;
  untar : bytes -> list (string * bytes) * option exn
}.

Module OsPath.
Import PyStr.

Fixpoint has_sep (s : string) : bool :=
  match s with
  | EmptyString => false
  | String c s' => Ascii.eqb c "/" || has_sep s'
  end.

(** [p[:p.rfind('/') + 1]] *)
Fixpoint head (p : string) : string :=
  match p with
  | EmptyString => ""
  | String c p' =>
      if has_sep p' then String c (head p')
      else if Ascii.eqb c "/" then "/" else ""
  end.

Fixpoint all_sep (s : string) : bool :=
  match s with
  | EmptyString => true
  | String c s' => Ascii.eqb c "/" && all_sep s'
  end.

(** [s.rstrip('/')] *)
Fixpoint rstrip_sep (s : string) : string :=
  match s with
  | EmptyString => ""
  | String c s' =>
      let r := rstrip_sep s' in
      if is_empty r && Ascii.eqb c "/" then "" else String c r
  end.

(** [os.path.dirname(p)] *)
Definition dirname (p : string) : string :=
  let h := head p in
  if negb (is_empty h) && negb (all_sep h) then rstrip_sep h else h.

(** The directories above [p] that may have to be made, nearest first:
    [dirname p], its own [dirname], and so on, as far as the working
    directory or the root.  Every step shortens the path, so its length is
    fuel enough. *)
Fixpoint parents_go (fuel : nat) (p : string) : list string :=
  match fuel with
  | O => []
  | S fuel =>
      let d := dirname p in
      if is_empty d || all_sep d then [] else d :: parents_go fuel d
  end.

Definition parents (p : string) : list string :=
  parents_go (String.length p) p.

End OsPath.

(** [os.path.isfile(path)], [os.path.isdir(path)] and
    [os.path.exists(path)] *)
Definition isfile (path : string) (fs : FS) : bool :=
  bool_decide (is_Some (files fs !! path)).

Definition isdir (path : string) (fs : FS) : bool :=
  bool_decide (path ∈ dirs fs).

Definition path_exists (path : string) (fs : FS) : bool :=
  bool_decide (is_Some (files fs !! path)) || bool_decide (path ∈ dirs fs).

(** Why [os.makedirs(d, exist_ok=True)] raises, when it does: the path is
    empty, or a regular file is in the way, above [d] or at [d] itself. *)
Definition makedirs_error (d : string) (fs : FS) : option exn :=
  if PyStr.is_empty d then Some (OtherError "FileNotFoundError" d)
  else if existsb (λ p, isfile p fs) (OsPath.parents d)
  then Some (OtherError "NotADirectoryError" d)
  else if isfile d fs then Some (OtherError "FileExistsError" d)
  else None.

(** The file system once [d] and the directories above it are there. *)
Definition made (d : string) (fs : FS) : FS :=
  {| files := files fs;
     dirs := {[ d ]} ∪ (list_to_set (OsPath.parents d) ∪ dirs fs) |}.

(** [os.makedirs(d, exist_ok=True)]: [d] and the missing directories above
    it are made; nothing is made when it raises. *)
Definition makedirs (d : string) : St FS unit := fun fs =>
  match makedirs_error d fs with
  | Some e => (Raise e, fs)
  | None => (Ok (), made d fs)
  end.

(** Why [open(path, 'wb')] raises, when it does: the path is empty, names a
    directory, or the directory it lies in is a regular file or is not
    there. *)
Definition open_error (path : string) (fs : FS) : option exn :=
  let d := OsPath.dirname path in
  if PyStr.is_empty path then Some (OtherError "FileNotFoundError" path)
  else if isdir path fs || PyStr.endswith path "/"
  then Some (OtherError "IsADirectoryError" path)
  else if PyStr.is_empty d || OsPath.all_sep d then None
  else if isfile d fs then Some (OtherError "NotADirectoryError" path)
  else if negb (isdir d fs) then Some (OtherError "FileNotFoundError" path)
  else None.

(** Opening [path] for writing: the file exists and is empty afterwards. *)
Definition create (path : string) : St FS unit := fun fs =>
  match open_error path fs with
  | Some e => (Raise e, fs)
  | None => (Ok (), {| files := <[ path := [] ]> (files fs); dirs := dirs fs |})
  end.

(** [tempfile.NamedTemporaryFile(suffix=".tar", delete=False)]: a new, empty
    file under the name that was picked; it is not deleted on closing. *)
Definition named_temporary_file (n : Net) : St FS string :=
  name ← lift (tmp_name n);
  modify (fun fs => {| files := <[ name := [] ]> (files fs); dirs := dirs fs |});;
  mret name.

(** [f.write(chunk)] on the file at [path]. *)
Definition write (path : string) (chunk : bytes) : St FS unit :=
  modify (fun fs =>
    {| files := <[ path := default [] (files fs !! path) ++ chunk ]> (files fs);
       dirs := dirs fs |}).

Fixpoint write_chunks (path : string) (chunks : list bytes) : St FS unit :=
  match chunks with
  | [] => mret ()
  | chunk :: rest => write path chunk;; write_chunks path rest
  end.

(** [for chunk in response.iter_content(...): f.write(chunk)]: the chunks
    that arrive are written, then the exception that broke the stream, if
    any, is raised. *)
Definition write_response (path : string) (response : list bytes * option exn)
  : St FS unit :=
  write_chunks path response.1;;
  match response.2 with
  | Some e => raise e
  | None => mret ()
  end.

Definition read (path : string) : St FS bytes := fun fs =>
  match files fs !! path with
  | Some data => (Ok data, fs)
  | None => (Raise (OtherError "FileNotFoundError" path), fs)
  end.

(** [tarfile] on one regular member: the directories above the target are
    made when they are missing, the target is opened for writing and the
    content is copied. *)
Definition extract_member (dest : string) (member : string * bytes) : St FS unit :=
  let targetpath := path_join dest member.1 in
  let upperdirs := OsPath.dirname targetpath in
  fs ← get;
  (if negb (PyStr.is_empty upperdirs) && negb (path_exists upperdirs fs)
   then makedirs upperdirs else mret ());;
  create targetpath;;
  write targetpath member.2.

Fixpoint extract_members (dest : string) (members : list (string * bytes))
  : St FS unit :=
  match members with
  | [] => mret ()
  | member :: rest => extract_member dest member;; extract_members dest rest
  end.

(** [with tarfile.open(name, "r") as tar: tar.extractall(dest)] on what
    [tarfile] reads from the archive: the members are extracted in order;
    the first that cannot be written stops the extraction, and so does the
    end of what can be read of a damaged archive. *)
Definition extractall (dest : string) (archive : list (string * bytes) * option exn)
  : St FS unit :=
  extract_members dest archive.1;;
  match archive.2 with
  | Some e => raise e
  | None => mret ()
  end.

Definition download_weights (n : Net) (url dest : string) (file : bool) : St FS unit :=
  if negb file then
    makedirs dest;;
    tmp_file ← named_temporary_file n;
    response ← lift (http_get n url);
    write_response tmp_file response;;
    archive ← read tmp_file;
    extractall dest (untar n archive)
  else
    let dirname := OsPath.dirname dest in
    (if negb (PyStr.is_empty dirname) then makedirs dirname else mret ());;
    response ← lift (http_get n url);
    create dest;;
    write_response dest response.

(** ** Vocabulary of the statements *)

(** No character of [s] is white space. *)
Fixpoint nospace (s : string) : bool :=
  match s with
  | EmptyString => true
  | String c s' => negb (PyStr.isspace c) && nospace s'
  end.

(** A word as [split] produces them: not empty, no white space inside. *)
Definition is_word (s : string) : bool := negb (PyStr.is_empty s) && nospace s.

(** The adapter-affecting part of the predictor: the list it remembers and
    the LoRA calls made on the pipelines so far. *)
Definition is_lora_call (c : call) : bool :=
  match c with
  | load_lora_weights _ _ _ _ | unload_lora_weights _ | set_adapters _ _ _ => true
  | to_cuda _ | set_attn_processor _ | run _ _ | save _ _ _ => false
  end.

Definition lora_state (st : Predictor) : loaded * list call :=
  (last_loaded_loras st, filter (λ c, is_lora_call c = true) (calls st)).

Definition is_run (c : call) : bool :=
  match c with run _ _ => true | _ => false end.


(** The predictor after one more call. *)
Definition after (st : Predictor) (cs : list call) : Predictor :=
  {| last_loaded_loras := last_loaded_loras st; calls := calls st ++ cs |}.

(** The shapes of identifier named by the specification, and the decision
    table over them in the words of the specification: first match wins. *)
Inductive shape :=
| HubSlug | ReplicateTar | HuggingFaceUrl | CivitaiUrl | SafetensorsUrl
| Unrecognised.

Global Instance shape_eq_dec : EqDecision shape.
Proof. solve_decision. Defined.

Definition decision_table (hf_lora : string) : shape :=
  if Re.matches Re.SLUG hf_lora then HubSlug
  else if Re.matches Re.REPLICATE hf_lora then ReplicateTar
  else if Re.matches Re.HF_URL hf_lora then HuggingFaceUrl
  else if Re.matches Re.CIVITAI hf_lora then CivitaiUrl
  else if PyStr.endswith hf_lora ".safetensors" then SafetensorsUrl
  else Unrecognised.

(** What an identifier of a given shape resolves to: the weights handed to
    the pipeline and, for a hub URL, the file name inside the repository. *)
Definition resolve (w : World) (sh : shape) (hf_lora : string)
  : option (string * option string) :=
  match sh with
  | HubSlug => Some (hf_lora, None)
  | ReplicateTar =>
      match ensure w hf_lora false with
      | Ok dir => Some (path_join dir REPLICATE_LORA_FILE, None)
      | Raise _ => None
      end
  | HuggingFaceUrl =>
      match Re.group1 Re.HF_URL_SLUG_PREFIX Re.HF_URL_SLUG_GROUP hf_lora with
      | Some slug => Some (slug, Some (PyStr.last_field "/" hf_lora))
      | None => None
      end
  | CivitaiUrl | SafetensorsUrl =>
      match ensure w hf_lora true with
      | Ok path => Some (path, None)
      | Raise _ => None
      end
  | Unrecognised => None
  end.

(** The scale list that [predict] hands to [load_loras] for [n] LoRAs, when
    it hands one. *)
Definition scales_for (n : nat) (lora_scales : option (list Q)) : option (list Q) :=
  match lora_scales with
  | None | Some [] => Some (replicate n DEFAULT_LORA_SCALE)
  | Some [scale] => Some (replicate n scale)
  | Some scales => if (n <=? length scales)%nat then Some scales else None
  end.

(** The adapter name that a [load_lora_weights] call asks for. *)
Definition adapter_name_of (c : call) : option string :=
  match c with
  | load_lora_weights _ _ _ adapter_name => adapter_name
  | _ => None
  end.

(** The adapters present on the components that the two pipelines share,
    after a log of calls, as diffusers keeps them: a load registers the
    adapter name it is given, or [default_<k>] when it is given none, [k]
    being the number of adapters present; an unload removes them all. *)
Definition register (present : list string) (c : call) : list string :=
  match c with
  | load_lora_weights _ _ _ (Some adapter_name) => present ++ [adapter_name]
  | load_lora_weights _ _ _ None =>
      present ++ ["default_" +:+ PyStr.of_nat (length present)]
  | unload_lora_weights _ => []
  | _ => present
  end.

Definition present_adapters (history : list call) : list string :=
  foldl register [] history.

(** How [set_adapters] of diffusers answers: it refuses lists of different
    lengths and names that are not present with a [ValueError], and fails
    with a [KeyError] on its per-component weights when no name is given. *)
Definition diffusers_set_adapters (history : list call)
    (adapter_names : list string) (adapter_weights : list Q) : result unit :=
  if negb (length adapter_names =? length adapter_weights)%nat then
    Raise (OtherError "ValueError"
             "Length of adapter names does not match length of their weights")
  else if negb (forallb (λ a, bool_decide (a ∈ present_adapters history)) adapter_names)
  then Raise (OtherError "ValueError"
                "Adapter name(s) not in the list of present adapters")
  else match adapter_names with
       | [] => Raise (KeyError "unet")
       | _ :: _ => Ok ()
       end.


(** Two worlds for the examples: one where every collaborator answers, one
    where the weights cache cannot download anything. *)
Definition online : World := {|
  ensure := λ url file,
    Ok (if file then "/cache/" +:+ PyStr.last_field "/" url else "/cache/extracted");
  activate := λ history _, diffusers_set_adapters history;
  infer := λ _ _ args, Ok (imap (λ i _, Image i) (arg_prompt args));
  nsfw := λ images, map (λ _, false) images;
  get_image := λ path, Ok (Tensor path);
  urandom := 4242
|}.

Definition offline : World := {|
  ensure := λ _ _, Raise (OtherError "ConnectionError" "host unreachable");
  activate := activate online;
  infer := infer online;
  nsfw := nsfw online;
  get_image := get_image online;
  urandom := urandom online
|}.

(** A world in which the cache fails on every URL that mentions "missing". *)
Definition flaky : World := {|
  ensure := λ url file,
    if PyStr.contains "missing" url
    then Raise (OtherError "HTTPError" "404 Client Error")
    else ensure online url file;
  activate := activate online;
  infer := infer online;
  nsfw := nsfw online;
  get_image := get_image online;
  urandom := urandom online
|}.

(** The inference error that [predict] answers with a retry. *)
Definition shape_mismatch (r : result (list image)) : bool :=
  match r with
  | Raise (RuntimeError msg) => PyStr.contains MAT_SHAPES msg
  | _ => false
  end.

(** A computation that leaves the adapter-affecting part alone. *)
Definition preserves {A} (m : St Predictor A) : Prop :=
  ∀ st, lora_state (m st).2 = lora_state st.

(** A request with the defaults of the [Input] declarations, for the
    examples. *)
Definition request (hf_loras : option (list string)) (lora_scales : option (list Q))
    (disable_safety_checker : bool) : Inputs := {|
  prompt := "a portrait of a cyberpunk pony";
  aspect_ratio := "1:1";
  input_image := None;
  prompt_strength := 8 # 10;
  num_outputs := 1;
  num_inference_steps := 28;
  guidance_scale := 35 # 10;
  seed := None;
  output_format := "webp";
  output_quality := 80;
  hf_loras := hf_loras;
  lora_scales := lora_scales;
  disable_safety_checker := disable_safety_checker
|}.

(** The images that [predict] keeps, each with its index in
    [output.images]: all of them when the checker is disabled, otherwise
    those whose flag in [has_nsfw_content] is not set. *)
Definition keeps (disable_safety_checker : bool) (has_nsfw_content : list bool)
    (entry : nat * image) : bool :=
  disable_safety_checker || negb (default false (has_nsfw_content !! entry.1)).

Definition kept_from (disable_safety_checker : bool) (has_nsfw_content : list bool)
    (i : nat) (images : list image) : list (nat * image) :=
  filter (λ entry, keeps disable_safety_checker has_nsfw_content entry = true)
         (zip (seq i (length images)) images).

(** The files of an archive written below [dest], later members over
    earlier ones. *)
Definition unpack (dest : string) (members : list (string * bytes))
    (m : gmap string bytes) : gmap string bytes :=
  foldl (λ acc member, <[ path_join dest member.1 := member.2 ]> acc) m members.

(** Why the directory that [dest] lies in cannot be made, when [dest] names
    one and it cannot. *)
Definition parent_error (dest : string) (fs : FS) : option exn :=
  if PyStr.is_empty (OsPath.dirname dest) then None
  else makedirs_error (OsPath.dirname dest) fs.

(** The file system once the directory that [dest] lies in is there. *)
Definition with_parent (dest : string) (fs : FS) : FS :=
  if PyStr.is_empty (OsPath.dirname dest) then fs
  else made (OsPath.dirname dest) fs.

(** The outcome of a stream: the exception that broke it, if any. *)
Definition stream_end (response : list bytes * option exn) : result unit :=
  match response.2 with
  | Some e => Raise e
  | None => Ok ()
  end.


Definition is_set_attn_processor (c : call) : bool :=
  match c with set_attn_processor _ => true | _ => false end.

(** A world whose pipeline fails with the shape mismatch until the attention
    processor has been replaced, and one whose checker flags every image. *)
Definition mismatched : World := {|
  ensure := ensure online;
  activate := activate online;
  infer := λ history p args,
    if existsb is_set_attn_processor history then infer online history p args
    else Raise (RuntimeError
           "mat1 and mat2 shapes cannot be multiplied (154x2048 and 768x320)");
  nsfw := nsfw online;
  get_image := get_image online;
  urandom := urandom online
|}.

Definition prudish : World := {|
  ensure := ensure online;
  activate := activate online;
  infer := infer online;
  nsfw := λ images, map (λ _, true) images;
  get_image := get_image online;
  urandom := urandom online
|}.

(** The predictor after a first request for one hub LoRA with the default
    scale. *)
Definition loaded_once : Predictor := {|
  last_loaded_loras := Loaded ["alvdansen/frosting_lane_flux"];
  calls := [unload_lora_weights txt2img_pipe;
            load_lora_weights txt2img_pipe
              "alvdansen/frosting_lane_flux" None (Some "a");
            set_adapters txt2img_pipe ["a"] [DEFAULT_LORA_SCALE]]
|}.

(** ** patch_unet_get_aug_embed

    A tensor is known by its shape; [Zeros] is what [torch.zeros] builds
    (the device is not recorded).  A keyword argument is [None], a tensor or
    a dict of tensors. *)

Inductive dtype := torch_float | torch_long.

Inductive tensor_value :=
| Zeros (shape : list Z) (dt : dtype)
| Data (id : nat) (shape : list Z).

Definition shape_of (t : tensor_value) : list Z :=
  match t with Zeros shape _ => shape | Data _ shape => shape end.

Inductive kwarg :=
| KNone
| KTensor (t : tensor_value)
| KDict (d : gmap string tensor_value).

(** [kwargs["sample"].shape[0] if "sample" in kwargs else 1] *)
Definition sample_batch_size (kwargs : gmap string kwarg) : result Z :=
  match kwargs !! "sample" with
  | None => Ok 1%Z
  | Some (KTensor t) =>
      match shape_of t with
      | batch_size :: _ => Ok batch_size
      | [] => Raise (IndexError "tuple index out of range")
      end
  | Some KNone => Raise (AttributeError "'NoneType' object has no attribute 'shape'")
  | Some (KDict _) => Raise (AttributeError "'dict' object has no attribute 'shape'")
  end.

(** [conds[key] = torch.zeros((batch_size, width), ...)] unless [key] is in
    [conds]. *)
Definition fill_default (kwargs : gmap string kwarg) (key : string) (width : Z)
    (dt : dtype) (conds : gmap string tensor_value)
  : result (gmap string tensor_value) :=
  match conds !! key with
  | Some _ => Ok conds
  | None =>
      match sample_batch_size kwargs with
      | Ok batch_size => Ok (<[ key := Zeros [batch_size; width] dt ]> conds)
      | Raise e => Raise e
      end
  end.

(** The keyword arguments that [patched_method] hands to the original
    method (lines 45-56). *)
Definition patched_kwargs (kwargs : gmap string kwarg) : result (gmap string kwarg) :=
  let kwargs :=
    match kwargs !! "added_cond_kwargs" with
    | None | Some KNone => <[ "added_cond_kwargs" := KDict ∅ ]> kwargs
    | Some _ => kwargs
    end in
  match kwargs !! "added_cond_kwargs" with
  | Some (KDict conds) =>
      match fill_default kwargs "text_embeds" 1280 torch_float conds with
      | Ok conds =>
          match fill_default kwargs "time_ids" 6 torch_long conds with
          | Ok conds => Ok (<[ "added_cond_kwargs" := KDict conds ]> kwargs)
          | Raise e => Raise e
          end
      | Raise e => Raise e
      end
  | Some (KTensor _) =>
      (* [str in tensor] *)
      Raise (RuntimeError
        "Tensor.__contains__ only supports Tensor or scalar, but you passed in a <class 'str'>.")
  | Some KNone | None =>
      Raise (OtherError "TypeError" "argument of type 'NoneType' is not iterable")
  end.

(** [patched_method(self, *args, **kwargs)] over the method it wraps. *)
Definition patched_method {R} (original_method : list kwarg → gmap string kwarg → result R)
    (args : list kwarg) (kwargs : gmap string kwarg) : result R :=
  match patched_kwargs kwargs with
  | Ok kwargs => original_method args kwargs
  | Raise e => Raise e
  end.

(** [patch_unet_get_aug_embed(unet)]: the new [unet.get_aug_embed], given
    the old one. *)
Definition patch_unet_get_aug_embed {R}
    (get_aug_embed : list kwarg → gmap string kwarg → result R)
  : list kwarg → gmap string kwarg → result R :=
  patched_method get_aug_embed.

(** ** The safety weights of setup *)

(** Lines 121-122 of [Predictor.setup]: fetch the safety checker unless its
    directory is there. *)
Definition setup_safety_cache (n : Net) : St FS unit := fun fs =>
  if negb (path_exists SAFETY_CACHE fs)
  then download_weights n SAFETY_URL SAFETY_CACHE false fs
  else (Ok (), fs).

(** ** More vocabulary *)

(** Every character of [s] is in the class [cls]. *)
Fixpoint all_in (cls : ascii → bool) (s : string) : bool :=
  match s with
  | EmptyString => true
  | String c s' => cls c && all_in cls s'
  end.

Definition is_load (c : call) : bool :=
  match c with load_lora_weights _ _ _ _ => true | _ => false end.

(** The [load_lora_weights] call of the loop for the hub slug [x] in slot
    [letter]. *)
Definition load_slug (x letter : string) : call :=
  load_lora_weights txt2img_pipe x None (Some letter).

(** A server that cannot be reached. *)
Definition unreachable : Net := {|
  http_get := λ url, Raise (OtherError "ConnectionError" url);
  tmp_name := Ok "/tmp/tmpz9y8x7.tar";
  untar := λ archive,
    ([], Some (OtherError "ReadError" "file could not be opened successfully"))
|}.


(** The pipeline that [predict] works on: the image-to-image one exactly
    when an input image is given. *)
Definition pipe_of (inp : Inputs) : pipe :=
  match input_image inp with
  | Some _ => img2img_pipe
  | None => txt2img_pipe
  end.

(** The inputs pass the two checks that precede the LoRA step: the aspect
    ratio is in the table and the input image, if any, can be opened. *)
Definition inputs_ok (w : World) (inp : Inputs) : bool :=
  bool_decide (is_Some (ASPECT_RATIOS !! aspect_ratio inp))
  && match input_image inp with
     | Some path => match get_image w path with Ok _ => true | Raise _ => false end
     | None => true
     end.

(** The path of a [save] call. *)
Definition saved_path (c : call) : option string :=
  match c with
  | save path _ _ => Some path
  | _ => None
  end.

(** The conditioning dict that the caller of [get_aug_embed] supplied: empty
    when [added_cond_kwargs] is missing or [None]; no dict at all when it is
    a tensor. *)
Definition given_conds (kwargs : gmap string kwarg) : option (gmap string tensor_value) :=
  match kwargs !! "added_cond_kwargs" with
  | None | Some KNone => Some ∅
  | Some (KDict conds) => Some conds
  | Some (KTensor _) => None
  end.

(** Keyword arguments of a call of [get_aug_embed] with a batch of two
    samples and nothing else. *)
Definition two_samples : gmap string kwarg :=
  {[ "sample" := KTensor (Data 0 [2; 4; 128; 128]%Z) ]}.

(** What the patch makes of [two_samples]. *)
Definition two_samples_conds : gmap string tensor_value :=
  <[ "time_ids" := Zeros [2; 6]%Z torch_long ]>
    (<[ "text_embeds" := Zeros [2; 1280]%Z torch_float ]> ∅).

Definition two_samples_patched : gmap string kwarg :=
  <[ "added_cond_kwargs" := KDict two_samples_conds ]> two_samples.

(** A computation that only adds calls satisfying [P] to the log. *)
Definition appends {A} (P : call → Prop) (m : St Predictor A) : Prop :=
  ∀ st, ∃ new, calls (m st).2 = calls st ++ new ∧ Forall P new.

(** * Properties *)

(** ** The embedding on sample inputs *)

Example slug_samples :
  Re.matches Re.SLUG "lucataco/flux-emoji" = true
  ∧ Re.matches Re.SLUG "lucataco/flux-emoji/extra" = false
  ∧ Re.matches Re.SLUG "/src/lora" = false
  ∧ Re.matches Re.SLUG ("owner/name" +:+ String Re.newline "") = true.
Proof. repeat split; reflexivity. Qed.

Example url_samples :
  Re.matches Re.REPLICATE
    "https://replicate.delivery/yhqm/abc_D-e/trained_model.tar" = true
  ∧ Re.matches Re.REPLICATE "https://replicate.delivery/yhqm/trained_model.tar" = false
  ∧ Re.matches Re.HF_URL "http://huggingface.co/owner" = true
  ∧ Re.matches Re.HF_URL "httpss://huggingface.co/owner" = false
  ∧ Re.matches Re.CIVITAI
      "https://civitai.com/api/download/models/12345?type=Model&format=SafeTensor" = true
  ∧ Re.matches Re.CIVITAI
      "https://civitai.com/api/download/models/?type=Model&format=SafeTensor" = false.
Proof. repeat split; reflexivity. Qed.

Example hf_url_samples :
  Re.group1 Re.HF_URL_SLUG_PREFIX Re.HF_URL_SLUG_GROUP
    "https://huggingface.co/owner/repo/resolve/main/lora.safetensors" = Some "owner/repo"
  ∧ Re.group1 Re.HF_URL_SLUG_PREFIX Re.HF_URL_SLUG_GROUP
      "https://huggingface.co/spaces" = None
  ∧ PyStr.last_field "/"
      "https://huggingface.co/owner/repo/resolve/main/lora.safetensors" = "lora.safetensors".
Proof. repeat split; reflexivity. Qed.

Example string_samples :
  PyStr.split "  a  tab	separated prompt " = ["a"; "tab"; "separated"; "prompt"]
  ∧ PyStr.join " " ["a"; "b"; "c"] = "a b c"
  ∧ truncate_prompt "one  two three" 2 = "one two"
  ∧ truncate_prompt " one  two " 2 = " one  two "
  ∧ PyStr.endswith "https://example.com/x.safetensors" ".safetensors" = true
  ∧ PyStr.contains "shapes cannot" "mat1 and mat2 shapes cannot be multiplied" = true
  ∧ output_path 3 "png" = "/tmp/out-3.png".
Proof. repeat split; reflexivity. Qed.

Example path_samples :
  OsPath.dirname "weights/sd/model.safetensors" = "weights/sd"
  ∧ OsPath.dirname "model.safetensors" = ""
  ∧ OsPath.dirname "/model.safetensors" = "/"
  ∧ path_join "/cache/ab12" REPLICATE_LORA_FILE
      = "/cache/ab12/output/flux_train_replicate/lora.safetensors"
  ∧ make_multiple_of_16 1000 = 1008%Z
  ∧ ASPECT_RATIOS !! "16:9" = Some (1344, 768)%Z.
Proof. repeat split; reflexivity. Qed.

(** ** Strings *)

Section strings.
Import PyStr.

Lemma app_nil_r (s : string) : s +:+ "" = s.
Proof. induction s as [|c s IH]; [done | exact (f_equal (String c) IH)]. Qed.

Lemma app_assoc (s t u : string) : (s +:+ t) +:+ u = s +:+ (t +:+ u).
Proof. induction s as [|c s IH]; [done | exact (f_equal (String c) IH)]. Qed.

Lemma length_append (s t : string) :
  String.length (s +:+ t) = (String.length s + String.length t)%nat.
Proof.
  induction s as [|c s IH]; [done |].
  change (String c s +:+ t) with (String c (s +:+ t)). simpl. by rewrite IH.
Qed.

Lemma is_empty_app (s t : string) :
  is_empty (s +:+ t) = is_empty s && is_empty t.
Proof. by destruct s. Qed.

Lemma nospace_app (s t : string) : nospace (s +:+ t) = nospace s && nospace t.
Proof.
  induction s as [|c s IH]; [done |].
  change (nospace (String c (s +:+ t)) = nospace (String c s) && nospace t).
  simpl. rewrite IH. by rewrite andb_assoc.
Qed.

(** Reading a run of non-space characters only extends the current word. *)
Lemma split_go_run (u : string) : ∀ word s,
  nospace u = true → split_go word (u +:+ s) = split_go (word +:+ u) s.
Proof.
  induction u as [|c u IH]; intros word s Hu.
  - by rewrite app_nil_r.
  - simpl in Hu. apply andb_true_iff in Hu as [Hc Hu].
    apply negb_true_iff in Hc.
    change (String c u +:+ s) with (String c (u +:+ s)).
    simpl split_go at 1. rewrite Hc.
    rewrite IH by done. by rewrite app_assoc.
Qed.

Lemma split_go_words (s : string) : ∀ word,
  nospace word = true → Forall (λ x, is_word x = true) (split_go word s).
Proof.
  induction s as [|c s IH]; intros word Hw; simpl.
  - destruct (is_empty word) eqn:He; constructor; [|constructor].
    unfold is_word. by rewrite He, Hw.
  - destruct (isspace c) eqn:Hc.
    + destruct (is_empty word) eqn:He; [by apply IH |].
      constructor; [| by apply IH].
      unfold is_word. by rewrite He, Hw.
    + apply IH. rewrite nospace_app, Hw. simpl. by rewrite Hc.
Qed.

Lemma split_words (s : string) : Forall (λ x, is_word x = true) (split s).
Proof. by apply split_go_words. Qed.

(** [split] undoes [join] on a list of words. *)
Lemma split_join (ws : list string) :
  Forall (λ x, is_word x = true) ws → split (join " " ws) = ws.
Proof.
  unfold split. induction ws as [|w ws IH]; intros Hws; [done |].
  apply Forall_cons in Hws as [Hw Hws].
  unfold is_word in Hw. apply andb_true_iff in Hw as [Hne Hns].
  apply negb_true_iff in Hne.
  destruct ws as [|w' ws].
  - simpl. rewrite <- (app_nil_r w) at 1.
    rewrite split_go_run by done.
    change ("" +:+ w) with w. simpl. by rewrite Hne.
  - change (join " " (w :: w' :: ws)) with (w +:+ " " +:+ join " " (w' :: ws)).
    rewrite split_go_run by done. change ("" +:+ w) with w.
    change (" " +:+ join " " (w' :: ws)) with (String " " (join " " (w' :: ws))).
    simpl split_go at 1. change (isspace " ") with true. cbv iota. rewrite Hne.
    f_equal. by apply IH.
Qed.

Lemma slice_to_nonneg {A} (l : list A) (n : Z) :
  (0 ≤ n)%Z → slice_to l n = take (Z.to_nat n) l.
Proof. intros Hn. unfold slice_to. by rewrite (proj2 (Z.leb_le 0 n) Hn). Qed.

End strings.

(** ** truncate_prompt *)

Lemma truncate_prompt_unfold (prompt : string) (n : nat) :
  truncate_prompt prompt (Z.of_nat n) =
    if (length (PyStr.split prompt) <=? n)%nat then prompt
    else PyStr.join " " (take n (PyStr.split prompt)).
Proof.
  unfold truncate_prompt. rewrite slice_to_nonneg by lia. rewrite Nat2Z.id.
  destruct (Nat.leb_spec (length (PyStr.split prompt)) n) as [H|H].
  - by rewrite (proj2 (Z.leb_le _ _)) by lia.
  - by rewrite (proj2 (Z.leb_gt _ _)) by lia.
Qed.

Lemma split_truncate_prompt (prompt : string) (n : nat) :
  PyStr.split (truncate_prompt prompt (Z.of_nat n)) =
    if (length (PyStr.split prompt) <=? n)%nat then PyStr.split prompt
    else take n (PyStr.split prompt).
Proof.
  rewrite truncate_prompt_unfold.
  destruct (length (PyStr.split prompt) <=? n)%nat; [done |].
  apply split_join, Forall_take, split_words.
Qed.


(** ** The state-and-exception monad *)

Lemma bind_run {S A B} (m : St S A) (f : A → St S B) (st : S) :
  (m ≫= f) st =
    match m st with
    | (Ok a, st') => f a st'
    | (Raise e, st') => (Raise e, st')
    end.
Proof. reflexivity. Qed.

Lemma bind_ok {S A B} (m : St S A) (f : A → St S B) (st st' : S) (a : A) :
  m st = (Ok a, st') → (m ≫= f) st = f a st'.
Proof. intros H. by rewrite bind_run, H. Qed.

Lemma bind_raise {S A B} (m : St S A) (f : A → St S B) (st st' : S) (e : exn) :
  m st = (Raise e, st') → (m ≫= f) st = (Raise e, st').
Proof. intros H. by rewrite bind_run, H. Qed.

Lemma get_run {S} (st : S) : get st = (Ok st, st).
Proof. reflexivity. Qed.

Lemma emit_run (c : call) (st : Predictor) : emit c st = (Ok (), after st [c]).
Proof. reflexivity. Qed.

Lemma after_nil (st : Predictor) : after st [] = st.
Proof. destruct st. unfold after. simpl. by rewrite List.app_nil_r. Qed.

Lemma after_after (st : Predictor) (l1 l2 : list call) :
  after (after st l1) l2 = after st (l1 ++ l2).
Proof. unfold after. simpl. by rewrite <- List.app_assoc. Qed.

Lemma index_names (count : nat) (st : Predictor) :
  (count < 26)%nat →
  ∃ letter, names !! count = Some letter
    ∧ index names count st = (Ok letter, st).
Proof.
  intros H. destruct (names !! count) as [letter|] eqn:E.
  - exists letter. split; [done |]. unfold index. by rewrite E.
  - apply lookup_ge_None in E. simpl in E. lia.
Qed.

(** ** load_loras *)

Lemma load_each_app (w : World) (l1 l2 : list string) : ∀ count st,
  load_each w count (l1 ++ l2) st =
    (load_each w count l1 ≫= λ count', load_each w count' l2) st.
Proof.
  induction l1 as [|x l1 IH]; intros count st; [done |].
  simpl load_each. rewrite !bind_run.
  destruct (load_one w count x st) as [[c|e] st1]; [| done].
  rewrite IH. by rewrite bind_run.
Qed.

(** An identifier that matches none of the five tests of the loop. *)
Lemma load_one_unrecognised (w : World) (count : nat) (x : string) (st : Predictor) :
  decision_table x = Unrecognised →
  load_one w count x st = (Raise (Exception (INVALID_LORA +:+ x)), st).
Proof.
  unfold decision_table, load_one. intros H.
  destruct (Re.matches Re.SLUG x); [done |].
  destruct (Re.matches Re.REPLICATE x); [done |].
  destruct (Re.matches Re.HF_URL x); [done |].
  destruct (Re.matches Re.CIVITAI x); [done |].
  by destruct (PyStr.endswith x ".safetensors").
Qed.

Lemma call_set_adapters_run (w : World) (p : pipe) (adapter_names : list string)
    (adapter_weights : list Q) (st : Predictor) :
  call_set_adapters w p adapter_names adapter_weights st =
    (activate w (calls st) p adapter_names adapter_weights,
     after st [set_adapters p adapter_names adapter_weights]).
Proof. reflexivity. Qed.

Lemma load_loras_run (w : World) (l : list string) (scales : list Q) (st : Predictor) :
  load_loras w l scales st =
    match load_each w 0 l st with
    | (Ok count, st') =>
        (activate w (calls st') txt2img_pipe (take count names) (take count scales),
         {| last_loaded_loras := Loaded l;
            calls := calls st' ++
              [set_adapters txt2img_pipe (take count names) (take count scales)] |})
    | (Raise e, st') => (Raise e, st')
    end.
Proof.
  unfold load_loras. rewrite bind_run.
  by destruct (load_each w 0 l st) as [[c|e] st'].
Qed.

Lemma decision_table_unrecognised (x : string) :
  Re.matches Re.SLUG x = false →
  Re.matches Re.REPLICATE x = false →
  Re.matches Re.HF_URL x = false →
  Re.matches Re.CIVITAI x = false →
  PyStr.endswith x ".safetensors" = false →
  decision_table x = Unrecognised.
Proof. unfold decision_table. by intros -> -> -> -> ->. Qed.


(** C5: an identifier that is no hub slug, no Replicate archive URL, no
    huggingface.co URL, no Civitai download URL and does not end in
    [.safetensors] makes the loop body raise a plain [Exception] whose
    message names it; [load_loras] on a list that contains it never returns
    normally, and raises that very exception, leaving the predictor as the
    identifiers before it left it, whenever these were processed. *)
Theorem invalid_lora_raises (w : World) (x : string) (pre post : list string)
    (scales : list Q) (st : Predictor) :
  Re.matches Re.SLUG x = false →
  Re.matches Re.REPLICATE x = false →
  Re.matches Re.HF_URL x = false →
  Re.matches Re.CIVITAI x = false →
  PyStr.endswith x ".safetensors" = false →
  (∀ count st0,
     load_one w count x st0 = (Raise (Exception (INVALID_LORA +:+ x)), st0))
  ∧ (∃ e st', load_loras w (pre ++ x :: post) scales st = (Raise e, st'))
  ∧ (∀ count st1,
       load_each w 0 pre st = (Ok count, st1) →
       load_loras w (pre ++ x :: post) scales st
         = (Raise (Exception (INVALID_LORA +:+ x)), st1)).
Proof.
  intros H1 H2 H3 H4 H5.
  pose proof (decision_table_unrecognised x H1 H2 H3 H4 H5) as Hx.
  assert (Hloop : ∀ count st1,
             load_each w 0 pre st = (Ok count, st1) →
             load_each w 0 (pre ++ x :: post) st
               = (Raise (Exception (INVALID_LORA +:+ x)), st1)).
  { intros count st1 Hpre. rewrite load_each_app.
    rewrite (bind_ok _ _ _ _ _ Hpre). simpl load_each.
    apply bind_raise. by apply load_one_unrecognised. }
  split; [| split].
  - intros count st0. by apply load_one_unrecognised.
  - rewrite load_loras_run.
    destruct (load_each w 0 pre st) as [[count|e] st1] eqn:Hpre.
    + rewrite (Hloop _ _ eq_refl). eauto.
    + rewrite load_each_app, (bind_raise _ _ _ _ _ Hpre). eauto.
  - intros count st1 Hpre. rewrite load_loras_run. by rewrite (Hloop _ _ Hpre).
Qed.

Lemma invalid_lora_raises_witness :
  load_loras online ["alvdansen/frosting_lane_flux"; "not a lora"] [1 # 2; 1 # 2] setup
    = (Raise (Exception (INVALID_LORA +:+ "not a lora")),
       after setup
         [load_lora_weights txt2img_pipe "alvdansen/frosting_lane_flux" None (Some "a")]).
Proof.
  refine (proj2 (proj2 (invalid_lora_raises online "not a lora"
            ["alvdansen/frosting_lane_flux"] [] [1 # 2; 1 # 2] setup _ _ _ _ _)) 1%nat _ _);
    vm_compute; reflexivity.
Defined.



Lemma load_tail (count : nat) (st : Predictor) (f : string → call) :
  (index names count ≫= λ adapter_name, emit (f adapter_name);; mret (S count)) st =
    match names !! count with
    | Some letter => (Ok (S count), after st [f letter])
    | None => (Raise (IndexError "list index out of range"), st)
    end.
Proof.
  rewrite bind_run. unfold index. by destruct (names !! count).
Qed.

Lemma names_NoDup : NoDup names.
Proof. apply (bool_decide_unpack _). vm_compute. exact I. Qed.

Lemma names_lookup (count : nat) : is_Some (names !! count) ↔ count < 26.
Proof. rewrite lookup_lt_is_Some. done. Qed.

(** One turn of the loop either raises before any call, or skips the
    identifier, or makes exactly one [load_lora_weights] call and takes one
    slot, which must be free. *)
Lemma load_one_cases (w : World) (count : nat) (x : string) (st : Predictor) :
  (∃ e, load_one w count x st = (Raise e, st))
  ∨ load_one w count x st = (Ok count, st)
  ∨ (count < 26
     ∧ ∃ src weight_name adapter_name,
         load_one w count x st
           = (Ok (S count),
              after st [load_lora_weights txt2img_pipe src weight_name adapter_name])).
Proof.
  assert (Htail : ∀ f : string → call,
    (∃ e, (index names count ≫= λ a, emit (f a);; mret (S count)) st = (Raise e, st))
    ∨ (count < 26 ∧ ∃ letter,
         (index names count ≫= λ a, emit (f a);; mret (S count)) st
           = (Ok (S count), after st [f letter]))).
  { intros f. rewrite load_tail.
    destruct (names !! count) as [letter|] eqn:E; [| eauto].
    right. split; [apply names_lookup; eauto | eauto]. }
  unfold load_one.
  destruct (Re.matches Re.SLUG x).
  { destruct (Htail (λ a, load_lora_weights txt2img_pipe x None (Some a)))
      as [[e He] | [Hc [letter He]]]; [eauto | right; right; eauto 10]. }
  destruct (Re.matches Re.REPLICATE x).
  { rewrite bind_run. simpl lift.
    destruct (ensure w x false) as [dir|e]; [| eauto].
    destruct (Htail (λ a, load_lora_weights txt2img_pipe
                            (path_join dir REPLICATE_LORA_FILE) None (Some a)))
      as [[e He] | [Hc [letter He]]]; [eauto | right; right; eauto 10]. }
  destruct (Re.matches Re.HF_URL x).
  { rewrite bind_run.
    destruct (Re.group1 Re.HF_URL_SLUG_PREFIX Re.HF_URL_SLUG_GROUP x) as [slug|];
      [| left; eauto].
    destruct (Htail (λ _, load_lora_weights txt2img_pipe slug
                            (Some (PyStr.last_field "/" x)) None))
      as [[e He] | [Hc [letter He]]]; [eauto | right; right; eauto 10]. }
  destruct (Re.matches Re.CIVITAI x).
  { rewrite bind_run. simpl lift.
    destruct (ensure w x true) as [path|e]; [| eauto].
    destruct (Htail (λ a, load_lora_weights txt2img_pipe path None (Some a)))
      as [[e He] | [Hc [letter He]]]; [eauto | right; right; eauto 10]. }
  destruct (PyStr.endswith x ".safetensors"); [| left; eauto].
  destruct (ensure w x true) as [path|e].
  - destruct (Htail (λ a, load_lora_weights txt2img_pipe path None (Some a)))
      as [[e He] | [Hc [letter He]]]; [eauto | right; right; eauto 10].
  - destruct (is_Exception e); [right; left; done | left; eauto].
Qed.

(** The loop: the calls it adds are [load_lora_weights] calls, one per slot
    taken; the remembered list is not touched. *)
Lemma load_each_calls (w : World) (l : list string) : ∀ count st,
  ∃ loads,
    (load_each w count l st).2 = after st loads
    ∧ Forall (λ c, is_load c = true) loads
    ∧ match (load_each w count l st).1 with
      | Ok count' =>
          count' = count + length loads ∧ length loads ≤ length l
          ∧ (count ≤ 26 → count' ≤ 26)
      | Raise _ => length loads < length l
      end.
Proof.
  induction l as [|x l IH]; intros count st.
  - exists []. rewrite after_nil. simpl. repeat split; (done || lia).
  - simpl load_each. rewrite bind_run.
    destruct (load_one_cases w count x st)
      as [[e He] | [He | (Hc & src & wn & an & He)]]; rewrite He.
    + exists []. rewrite after_nil. simpl. repeat split; (done || lia).
    + destruct (IH count st) as (loads & Hst & Hl & Hr). exists loads.
      split; [done |]. split; [done |].
      destruct (load_each w count l st).1; simpl; lia.
    + destruct (IH (S count) (after st [load_lora_weights txt2img_pipe src wn an]))
        as (loads & Hst & Hl & Hr).
      exists (load_lora_weights txt2img_pipe src wn an :: loads).
      rewrite Hst, after_after. split; [done |]. split; [by constructor |].
      destruct (load_each w (S count) l _).1; simpl; lia.
Qed.

Lemma load_each_cons (w : World) (count : nat) (x : string) (l : list string)
    (st : Predictor) :
  load_each w count (x :: l) st
    = (load_one w count x ≫= λ count', load_each w count' l) st.
Proof. reflexivity. Qed.













(** C3: evaluation of [load_loras] on a single huggingface.co URL, in any
    world.  The loop takes the letter [a] from the pool and counts it as
    used, so the final [set_adapters] names [a]; but the [load_lora_weights]
    call of this branch carries no adapter name, unlike the call of the four
    other branches: the adapter that is present afterwards is [default_0],
    not [a].  The outcome of [load_loras] is what [set_adapters] answers to
    the name [a] (diffusers refuses it with a [ValueError]), the list being
    remembered already. *)
Theorem hf_url_lora_is_loaded_without_its_letter (w : World) :
  load_loras w
    ["https://huggingface.co/owner/repo/resolve/main/lora.safetensors"]
    [4 # 5] setup
  = (activate w
       [load_lora_weights txt2img_pipe "owner/repo" (Some "lora.safetensors") None]
       txt2img_pipe ["a"] [4 # 5],
     {| last_loaded_loras :=
          Loaded ["https://huggingface.co/owner/repo/resolve/main/lora.safetensors"];
        calls :=
          [load_lora_weights txt2img_pipe "owner/repo" (Some "lora.safetensors") None;
           set_adapters txt2img_pipe ["a"] [4 # 5]] |})
  ∧ present_adapters
      [load_lora_weights txt2img_pipe "owner/repo" (Some "lora.safetensors") None]
    = ["default_0"]
  ∧ diffusers_set_adapters
      [load_lora_weights txt2img_pipe "owner/repo" (Some "lora.safetensors") None]
      ["a"] [4 # 5]
    = Raise (OtherError "ValueError"
               "Adapter name(s) not in the list of present adapters").
Proof. repeat split; vm_compute; reflexivity. Qed.

(** C1, as stated, fails: a local archive path is one of the listed shapes,
    yet the loop rejects it, in a world where every download succeeds. *)
Lemma local_archive_path_is_rejected :
  decision_table "/src/loras/trained_model.tar" = Unrecognised
  ∧ load_loras online ["/src/loras/trained_model.tar"] [DEFAULT_LORA_SCALE] setup
    = (Raise (Exception (INVALID_LORA +:+ "/src/loras/trained_model.tar")), setup).
Proof. split; vm_compute; reflexivity. Qed.

(** C1, amended: the loop body follows the first-match decision table over
    hub slugs, Replicate archive URLs, huggingface.co URLs, Civitai download
    URLs and strings ending in [.safetensors].  An identifier of one of these
    shapes whose weights resolve is loaded by one [load_lora_weights] call on
    the resolved weights and takes one slot; an identifier of no such shape
    (a local archive path, say) is rejected with the invalid-LoRA exception. *)
Theorem load_one_follows_decision_table (w : World) (count : nat) (x : string)
    (st : Predictor) :
  (count < 26)%nat →
  match decision_table x with
  | Unrecognised =>
      load_one w count x st = (Raise (Exception (INVALID_LORA +:+ x)), st)
  | sh =>
      ∀ src weight_name,
        resolve w sh x = Some (src, weight_name) →
        ∃ adapter_name,
          load_one w count x st
            = (Ok (S count),
               after st [load_lora_weights txt2img_pipe src weight_name adapter_name])
  end.
Proof.
  intros Hc.
  destruct (index_names count st Hc) as (letter & _ & Hi).
  unfold decision_table, load_one, resolve.
  destruct (Re.matches Re.SLUG x).
  { intros src wn [= <- <-]. eexists. by rewrite (bind_ok _ _ _ _ _ Hi). }
  destruct (Re.matches Re.REPLICATE x).
  { intros src wn. destruct (ensure w x false) as [dir|]; [| done].
    intros [= <- <-]. eexists.
    erewrite bind_ok by reflexivity. by rewrite (bind_ok _ _ _ _ _ Hi). }
  destruct (Re.matches Re.HF_URL x).
  { intros src wn.
    destruct (Re.group1 Re.HF_URL_SLUG_PREFIX Re.HF_URL_SLUG_GROUP x); [| done].
    intros [= <- <-]. eexists.
    erewrite bind_ok by reflexivity. by rewrite (bind_ok _ _ _ _ _ Hi). }
  destruct (Re.matches Re.CIVITAI x).
  { intros src wn. destruct (ensure w x true) as [path|]; [| done].
    intros [= <- <-]. eexists.
    erewrite bind_ok by reflexivity. by rewrite (bind_ok _ _ _ _ _ Hi). }
  destruct (PyStr.endswith x ".safetensors"); [| done].
  intros src wn. destruct (ensure w x true) as [path|]; [| done].
  intros [= <- <-]. eexists. by rewrite (bind_ok _ _ _ _ _ Hi).
Qed.

Lemma load_one_follows_decision_table_witness :
  ∃ adapter_name,
    load_one online 2 "https://replicate.delivery/yhqm/abc/trained_model.tar" setup
    = (Ok 3%nat,
       after setup
         [load_lora_weights txt2img_pipe
            "/cache/extracted/output/flux_train_replicate/lora.safetensors"
            None adapter_name]).
Proof.
  refine (load_one_follows_decision_table online 2
            "https://replicate.delivery/yhqm/abc/trained_model.tar" setup _
            "/cache/extracted/output/flux_train_replicate/lora.safetensors" None _).
  - lia.
  - vm_compute. reflexivity.
Defined.

(** ** Inference and its retry *)

Lemma call_pipe_run (w : World) (p : pipe) (args : pipe_args) (st : Predictor) :
  call_pipe w p args st = (infer w (calls st) p args, after st [run p args]).
Proof. reflexivity. Qed.


Lemma run_inference_run (w : World) (p : pipe) (args : pipe_args) (st : Predictor) :
  run_inference w p args st =
    (if shape_mismatch (infer w (calls st) p args)
     then (infer w (calls st ++ [run p args; set_attn_processor p]) p args,
           after st [run p args; set_attn_processor p; run p args])
     else (infer w (calls st) p args, after st [run p args])).
Proof.
  unfold run_inference. rewrite call_pipe_run.
  destruct (infer w (calls st) p args) as [imgs|e]; [done |].
  destruct e; try done. simpl shape_mismatch.
  destruct (PyStr.contains MAT_SHAPES msg); [| done].
  by rewrite bind_run, emit_run, call_pipe_run, !after_after.
Qed.


(** ** Frame lemmas for the adapter state *)

Section frame.

Lemma preserves_ret {A} (a : A) : preserves (mret a).
Proof. by intros st. Qed.

Lemma preserves_raise {A} (e : exn) : preserves (raise (A := A) e).
Proof. by intros st. Qed.

Lemma preserves_lift {A} (r : result A) : preserves (lift r).
Proof. by intros st. Qed.

Lemma preserves_index {A} (l : list A) (i : nat) : preserves (index l i).
Proof. unfold index. destruct (l !! i); by intros st. Qed.

Lemma preserves_emit (c : call) : is_lora_call c = false → preserves (emit c).
Proof.
  intros Hc st. unfold lora_state. simpl. rewrite filter_app.
  rewrite (filter_cons_False _ c) by (rewrite Hc; done).
  by rewrite filter_nil, List.app_nil_r.
Qed.

Lemma preserves_bind {A B} (m : St Predictor A) (f : A → St Predictor B) :
  preserves m → (∀ a, preserves (f a)) → preserves (m ≫= f).
Proof.
  intros Hm Hf st. rewrite bind_run. specialize (Hm st).
  destruct (m st) as [[a|e] st1]; simpl in *; [| done].
  by rewrite Hf.
Qed.

Lemma lora_state_after (st : Predictor) (cs : list call) :
  Forall (λ c, is_lora_call c = false) cs →
  lora_state (after st cs) = lora_state st.
Proof.
  intros H. unfold lora_state, after. simpl. rewrite filter_app. f_equal.
  rewrite <- (List.app_nil_r (filter _ (calls st))) at 2. f_equal.
  induction H as [|c cs Hc _ IH]; [done |].
  rewrite filter_cons_False by (rewrite Hc; done). exact IH.
Qed.

Lemma preserves_run_inference (w : World) (p : pipe) (args : pipe_args) :
  preserves (run_inference w p args).
Proof.
  intros st.
  rewrite run_inference_run.
  destruct (shape_mismatch _); simpl; apply lora_state_after;
    repeat constructor.
Qed.

Lemma preserves_save_each (d : bool) (flags : list bool) (fmt : string) (q : Z)
    (images : list image) : ∀ i acc,
  preserves (save_each d flags fmt q i images acc).
Proof.
  induction images as [|img images IH]; intros i acc; simpl.
  - apply preserves_ret.
  - apply preserves_bind.
    + destruct d; [apply preserves_ret | apply preserves_index].
    + intros [|]; [apply IH |].
      apply preserves_bind; [by apply preserves_emit | intros _; apply IH].
Qed.

Lemma preserves_save_outputs (w : World) (inp : Inputs) (images : list image) :
  preserves (save_outputs w inp images).
Proof.
  unfold save_outputs. apply preserves_bind; [apply preserves_save_each |].
  intros paths. destruct (length paths =? 0)%nat;
    [apply preserves_raise | apply preserves_ret].
Qed.

End frame.

(** ** The LoRA step of predict *)

Lemma apply_loras_same (w : World) (p : pipe) (l : list string)
    (scales : option (list Q)) (st : Predictor) :
  l ≠ [] →
  last_loaded_loras st = Loaded l →
  apply_loras w p (Some l) scales st = (Ok (Some 1%Q), st).
Proof.
  intros Hl Hlast. destruct l as [|x xs]; [done |].
  unfold apply_loras. rewrite (bind_ok _ _ _ _ _ (get_run st)).
  rewrite bool_decide_eq_false_2; [done |].
  intros Hne. by apply Hne.
Qed.

Lemma generate_same_loras (w : World) (inp : Inputs) (l : list string)
    (st : Predictor) :
  l ≠ [] →
  last_loaded_loras st = Loaded l →
  hf_loras inp = Some l →
  lora_state (generate w inp st).2 = lora_state st.
Proof.
  intros Hl Hlast Hinp. unfold generate. rewrite bind_run.
  unfold aspect_ratio_to_width_height.
  destruct (ASPECT_RATIOS !! aspect_ratio inp) as [[width height]|]; [| done].
  simpl. rewrite bind_run.
  assert (Hrest : ∀ p init,
    lora_state
      ((apply_loras w p (hf_loras inp) (lora_scales inp) ≫= λ jak,
          emit (to_cuda p);;
          run_inference w p
            {| arg_prompt :=
                 replicate (Z.to_nat (num_outputs inp)) (truncate_prompt (prompt inp) 75);
               arg_guidance_scale := guidance_scale inp;
               arg_seed := default (urandom w) (seed inp);
               arg_num_inference_steps := num_inference_steps inp;
               arg_width := width;
               arg_height := height;
               arg_image := init;
               arg_strength := match init with
                               | Some _ => Some (prompt_strength inp)
                               | None => None
                               end;
               arg_joint_attention_kwargs := jak |}) st).2 = lora_state st).
  { intros p init. rewrite Hinp.
    rewrite (bind_ok _ _ _ _ _ (apply_loras_same w p l _ st Hl Hlast)).
    apply (preserves_bind (emit (to_cuda p))); [by apply preserves_emit |].
    intros _. apply preserves_run_inference. }
  destruct (input_image inp) as [path|].
  - rewrite bind_run. simpl lift.
    destruct (get_image w path) as [t|e]; [| done]. apply Hrest.
  - apply Hrest.
Qed.

(** C2: when the requested list is not empty and is the list that was loaded
    last, the LoRA step of [predict] makes no call and leaves the predictor
    as it was, whatever [lora_scales] holds; over the whole of [predict] the
    remembered list and the LoRA calls made on the pipelines are unchanged. *)
Theorem same_loras_are_not_reloaded (w : World) (p : pipe) (l : list string)
    (scales : option (list Q)) (st : Predictor) :
  l ≠ [] →
  last_loaded_loras st = Loaded l →
  apply_loras w p (Some l) scales st = (Ok (Some 1%Q), st)
  ∧ (∀ inp, hf_loras inp = Some l →
       lora_state (predict w inp st).2 = lora_state st).
Proof.
  intros Hl Hlast. split; [by apply apply_loras_same |].
  intros inp Hinp. unfold predict. rewrite bind_run.
  pose proof (generate_same_loras w inp l st Hl Hlast Hinp) as Hg.
  destruct (generate w inp st) as [[images|e] st1]; simpl in *; [| done].
  by rewrite preserves_save_outputs.
Qed.

Lemma same_loras_are_not_reloaded_witness :
  apply_loras online txt2img_pipe (Some ["alvdansen/frosting_lane_flux"])
    (Some [1 # 3]) loaded_once = (Ok (Some 1%Q), loaded_once).
Proof.
  refine (proj1 (same_loras_are_not_reloaded online txt2img_pipe
            ["alvdansen/frosting_lane_flux"] (Some [1 # 3]) loaded_once _ _)).
  - discriminate.
  - reflexivity.
Defined.

Lemma apply_loras_new (w : World) (p : pipe) (l : list string)
    (lora_scales : option (list Q)) (st : Predictor) :
  l ≠ [] →
  last_loaded_loras st ≠ Loaded l →
  apply_loras w p (Some l) lora_scales st =
    match scales_for (length l) lora_scales with
    | Some scales =>
        (load_loras w l scales ≫= λ _, mret (Some 1%Q))
          (after st [unload_lora_weights p])
    | None => (Ok (Some 1%Q), after st [unload_lora_weights p])
    end.
Proof.
  intros Hl Hlast. destruct l as [|x xs]; [done |].
  unfold apply_loras. rewrite (bind_ok _ _ _ _ _ (get_run st)).
  rewrite bool_decide_eq_true_2 by (intros H; by apply Hlast).
  rewrite bind_run, (bind_ok _ _ _ _ _ (emit_run _ st)).
  unfold scales_for.
  destruct lora_scales as [[|s1 [|s2 scales]]|]; try reflexivity.
  destruct (length (x :: xs) <=? length (s1 :: s2 :: scales))%nat; reflexivity.
Qed.










(** ** Safety filtering and the returned paths *)

Lemma save_each_run (d : bool) (flags flags' : list bool) (fmt : string) (q : Z)
    (images : list image) : ∀ i acc st,
  (d = false → flags' = flags ∧ (i + length images ≤ length flags)%nat) →
  save_each d flags' fmt q i images acc st =
    (Ok (acc ++ map (λ e, output_path e.1 fmt) (kept_from d flags i images)),
     after st
       (map (λ e, save (output_path e.1 fmt) e.2
                    (if String.eqb fmt "png" then None else Some q))
            (kept_from d flags i images))).
Proof.
  induction images as [|img images IH]; intros i acc st Hd.
  - unfold kept_from. simpl. by rewrite List.app_nil_r, after_nil.
  - assert (Hflag : (if d then mret false else index flags' i) st
                    = (Ok (negb (keeps d flags (i, img))), st)).
    { unfold keeps. destruct d; [done |].
      destruct (Hd eq_refl) as [-> Hlen]. simpl in Hlen.
      destruct (lookup_lt_is_Some_2 flags i ltac:(lia)) as [b Hb].
      unfold index. simpl. rewrite Hb. simpl. by rewrite negb_involutive. }
    assert (Hd' : d = false →
              flags' = flags ∧ (S i + length images ≤ length flags)%nat).
    { intros E. destruct (Hd E) as [-> Hlen]. simpl in Hlen. split; [done | lia]. }
    simpl save_each. rewrite (bind_ok _ _ _ _ _ Hflag).
    unfold kept_from. simpl length. simpl seq. simpl zip.
    destruct (keeps d flags (i, img)) eqn:Hk; cbn [negb].
    + rewrite filter_cons_True by done.
      rewrite (bind_ok _ _ _ _ _ (emit_run _ st)).
      rewrite (IH (S i) _ _ Hd'). unfold kept_from. simpl.
      by rewrite <- List.app_assoc, after_after.
    + rewrite filter_cons_False by (rewrite Hk; done).
      by rewrite (IH (S i) _ _ Hd').
Qed.

(** With the checker enabled and one flag per image, nothing is kept
    exactly when every flag is set. *)
Lemma kept_from_nil (images : list image) : ∀ (seen flags : list bool),
  length flags = length images →
  kept_from false (seen ++ flags) (length seen) images = [] ↔ forallb id flags = true.
Proof.
  induction images as [|img images IH]; intros seen flags Hlen.
  - destruct flags; [done | simpl in Hlen; lia].
  - destruct flags as [|b flags]; [simpl in Hlen; lia |].
    assert (Hb : keeps false (seen ++ b :: flags) (length seen, img) = negb b).
    { unfold keeps. simpl. by rewrite list_lookup_middle. }
    specialize (IH (seen ++ [b]) flags ltac:(simpl in Hlen; lia)).
    rewrite <- List.app_assoc, length_app, Nat.add_1_r in IH. simpl in IH.
    unfold kept_from in *. simpl length. simpl seq. simpl zip. simpl forallb.
    destruct b.
    + rewrite filter_cons_False by (rewrite Hb; done). exact IH.
    + rewrite filter_cons_True by done. split; intros; discriminate.
Qed.

Lemma kept_from_disabled (flags : list bool) (img : image) (images : list image) :
  kept_from true flags 0 (img :: images) ≠ [].
Proof. unfold kept_from. simpl. by rewrite filter_cons_True. Qed.

(** C7: once inference has produced its images (at least one, and one flag
    per image when the checker runs), [predict] raises the plain NSFW
    [Exception], having saved nothing, exactly when the checker is enabled
    and every image is flagged; otherwise it saves the images that are not
    flagged and returns one path for each of them, in order, named after the
    index of the image. *)
Theorem unsafe_images_are_dropped (w : World) (inp : Inputs) (images : list image)
    (st st1 : Predictor) :
  generate w inp st = (Ok images, st1) →
  images ≠ [] →
  (disable_safety_checker inp = false → length (nsfw w images) = length images) →
  let kept := kept_from (disable_safety_checker inp) (nsfw w images) 0 images in
  predict w inp st =
    (if negb (disable_safety_checker inp) && forallb id (nsfw w images)
     then (Raise (Exception NSFW_MESSAGE), st1)
     else (Ok (map (λ e, output_path e.1 (output_format inp)) kept),
           after st1
             (map (λ e, save (output_path e.1 (output_format inp)) e.2
                          (if String.eqb (output_format inp) "png" then None
                           else Some (output_quality inp)))
                  kept))).
Proof.
  intros Hgen Himg Hlen kept. subst kept.
  unfold predict. rewrite (bind_ok _ _ _ _ _ Hgen). unfold save_outputs.
  destruct (disable_safety_checker inp) eqn:Hd.
  - rewrite (bind_ok _ _ _ _ _
               (save_each_run true (nsfw w images) [] _ _ images 0 [] st1
                  ltac:(discriminate))).
    simpl app. destruct images as [|img images]; [done |].
    pose proof (kept_from_disabled (nsfw w (img :: images)) img images) as Hne.
    destruct (kept_from true (nsfw w (img :: images)) 0 (img :: images));
      [done | reflexivity].
  - specialize (Hlen eq_refl).
    rewrite (bind_ok _ _ _ _ _
               (save_each_run false (nsfw w images) (nsfw w images) _ _ images 0 []
                  st1 ltac:(intros _; split; [done | lia]))).
    simpl app. simpl negb. simpl andb.
    pose proof (kept_from_nil images [] (nsfw w images) Hlen) as Hnil.
    simpl in Hnil.
    destruct (forallb id (nsfw w images)).
    + rewrite (proj2 Hnil eq_refl). simpl. by rewrite after_nil.
    + destruct (kept_from false (nsfw w images) 0 images);
        [discriminate (proj1 Hnil eq_refl) | reflexivity].
Qed.

Lemma unsafe_images_are_dropped_witness :
  predict online (request None None false) setup
  = (Ok ["/tmp/out-0.webp"],
     after setup
       [unload_lora_weights txt2img_pipe; to_cuda txt2img_pipe;
        run txt2img_pipe
          {| arg_prompt := ["a portrait of a cyberpunk pony"];
             arg_guidance_scale := 35 # 10;
             arg_seed := 4242;
             arg_num_inference_steps := 28;
             arg_width := 1024;
             arg_height := 1024;
             arg_image := None;
             arg_strength := None;
             arg_joint_attention_kwargs := None |};
        save "/tmp/out-0.webp" (Image 0) (Some 80%Z)]).
Proof.
  refine (unsafe_images_are_dropped online (request None None false) [Image 0]
            setup
            (after setup
               [unload_lora_weights txt2img_pipe; to_cuda txt2img_pipe;
                run txt2img_pipe
                  {| arg_prompt := ["a portrait of a cyberpunk pony"];
                     arg_guidance_scale := 35 # 10;
                     arg_seed := 4242;
                     arg_num_inference_steps := 28;
                     arg_width := 1024;
                     arg_height := 1024;
                     arg_image := None;
                     arg_strength := None;
                     arg_joint_attention_kwargs := None |}])
            _ _ _).
  - vm_compute. reflexivity.
  - discriminate.
  - reflexivity.
Defined.

(** ** download_weights *)

Lemma lift_ok {S A} (r : result A) (a : A) (st : S) :
  r = Ok a → lift r st = (Ok a, st).
Proof. by intros ->. Qed.

Lemma lift_raise {S A} (r : result A) (e : exn) (st : S) :
  r = Raise e → lift r st = (Raise e, st).
Proof. by intros ->. Qed.

Lemma read_run (path : string) (data : bytes) (fs : FS) :
  files fs !! path = Some data → read path fs = (Ok data, fs).
Proof. intros H. unfold read. by rewrite H. Qed.

Lemma makedirs_run (d : string) (fs : FS) :
  makedirs d fs =
    match makedirs_error d fs with
    | Some e => (Raise e, fs)
    | None => (Ok (), made d fs)
    end.
Proof. reflexivity. Qed.

Lemma create_run (path : string) (fs : FS) :
  create path fs =
    match open_error path fs with
    | Some e => (Raise e, fs)
    | None => (Ok (), {| files := <[ path := [] ]> (files fs); dirs := dirs fs |})
    end.
Proof. reflexivity. Qed.

Lemma named_temporary_file_run (n : Net) (fs : FS) :
  named_temporary_file n fs =
    match tmp_name n with
    | Ok name =>
        (Ok name, {| files := <[ name := [] ]> (files fs); dirs := dirs fs |})
    | Raise e => (Raise e, fs)
    end.
Proof. unfold named_temporary_file. rewrite bind_run. by destruct (tmp_name n). Qed.

Lemma write_run (path : string) (chunk : bytes) (fs : FS) :
  write path chunk fs =
    (Ok (), {| files := <[ path := default [] (files fs !! path) ++ chunk ]> (files fs);
               dirs := dirs fs |}).
Proof. reflexivity. Qed.

Lemma write_chunks_run (path : string) (chunks : list bytes) : ∀ fs content,
  files fs !! path = Some content →
  write_chunks path chunks fs =
    (Ok (), {| files := <[ path := content ++ mjoin chunks ]> (files fs);
               dirs := dirs fs |}).
Proof.
  induction chunks as [|chunk chunks IH]; intros fs content Hpath.
  - simpl. rewrite List.app_nil_r, insert_id by done. by destruct fs.
  - simpl write_chunks. rewrite (bind_ok _ _ _ _ _ (write_run _ _ _)).
    rewrite (IH _ (content ++ chunk)); simpl; rewrite Hpath; simpl.
    + by rewrite insert_insert_eq, <- List.app_assoc.
    + by rewrite lookup_insert_eq.
Qed.

Lemma write_response_run (path : string) (response : list bytes * option exn)
    (fs : FS) (content : bytes) :
  files fs !! path = Some content →
  write_response path response fs =
    (stream_end response,
     {| files := <[ path := content ++ mjoin response.1 ]> (files fs);
        dirs := dirs fs |}).
Proof.
  intros Hpath. unfold write_response, stream_end.
  rewrite (bind_ok _ _ _ _ _ (write_chunks_run _ _ _ _ Hpath)).
  by destruct response.2.
Qed.

(** Making directories never touches a file and never removes a
    directory. *)
Lemma makedirs_frame (b : bool) (d : string) (fs : FS) :
  files ((if b then makedirs d else mret ()) fs).2 = files fs
  ∧ dirs fs ⊆ dirs ((if b then makedirs d else mret ()) fs).2.
Proof.
  destruct b; [| done]. rewrite makedirs_run.
  destruct (makedirs_error d fs); simpl; [done |]. split; [done | set_solver].
Qed.

(** One member is either written whole or not at all. *)
Lemma extract_member_cases (dest : string) (member : string * bytes) (fs : FS) :
  dirs fs ⊆ dirs (extract_member dest member fs).2
  ∧ ((∃ e, (extract_member dest member fs).1 = Raise e
           ∧ files (extract_member dest member fs).2 = files fs)
     ∨ ((extract_member dest member fs).1 = Ok ()
        ∧ files (extract_member dest member fs).2
          = <[ path_join dest member.1 := member.2 ]> (files fs))).
Proof.
  unfold extract_member. rewrite (bind_ok _ _ _ _ _ (get_run fs)).
  set (b := negb (PyStr.is_empty (OsPath.dirname (path_join dest member.1)))
            && negb (path_exists (OsPath.dirname (path_join dest member.1)) fs)).
  destruct (makedirs_frame b (OsPath.dirname (path_join dest member.1)) fs)
    as [Hf Hd].
  rewrite bind_run.
  destruct ((if b then makedirs _ else mret ()) fs) as [[[]|e] fs1]; simpl in *;
    [| split; [done | left; eauto]].
  rewrite bind_run, create_run.
  destruct (open_error (path_join dest member.1) fs1) as [e|];
    [split; [done | left; eauto] |].
  rewrite write_run. simpl. split; [done |]. right. split; [done |].
  by rewrite lookup_insert_eq, insert_insert_eq, Hf.
Qed.

(** The members are extracted in order up to the first that cannot be
    written; no directory is removed. *)
Lemma extract_members_prefix (dest : string) (members : list (string * bytes)) :
  ∀ fs, ∃ extracted,
    extracted `prefix_of` members
    ∧ files (extract_members dest members fs).2 = unpack dest extracted (files fs)
    ∧ dirs fs ⊆ dirs (extract_members dest members fs).2
    ∧ ((extract_members dest members fs).1 = Ok () → extracted = members).
Proof.
  induction members as [|member members IH]; intros fs.
  - exists []. by repeat split.
  - simpl extract_members. rewrite bind_run.
    destruct (extract_member_cases dest member fs) as [Hd [(e & Hr & Hf) | [Hr Hf]]];
      destruct (extract_member dest member fs) as [r fs1]; simpl in *; subst r.
    + exists []. repeat split; try done. apply prefix_nil.
    + destruct (IH fs1) as (extracted & Hpre & Hfiles & Hdirs & Hok).
      exists (member :: extracted). repeat split.
      * by apply prefix_cons.
      * rewrite Hfiles, Hf. done.
      * set_solver.
      * intros H. by rewrite (Hok H).
Qed.

Lemma extractall_prefix (dest : string) (archive : list (string * bytes) * option exn)
    (fs : FS) :
  ∃ extracted,
    extracted `prefix_of` archive.1
    ∧ files (extractall dest archive fs).2 = unpack dest extracted (files fs)
    ∧ dirs fs ⊆ dirs (extractall dest archive fs).2
    ∧ ((extractall dest archive fs).1 = Ok () →
       extracted = archive.1 ∧ archive.2 = None).
Proof.
  destruct (extract_members_prefix dest archive.1 fs)
    as (extracted & Hpre & Hfiles & Hdirs & Hok).
  exists extracted. unfold extractall. rewrite bind_run.
  destruct (extract_members dest archive.1 fs) as [[[]|e] fs1]; simpl in *;
    [| by repeat split].
  destruct archive.2; simpl; repeat split; try done. by apply Hok.
Qed.


(** [download_weights] with [file=False], step by step. *)
Lemma download_weights_archive_run (n : Net) (url dest : string) (fs : FS) :
  download_weights n url dest false fs =
    match makedirs_error dest fs with
    | Some e => (Raise e, fs)
    | None =>
        match tmp_name n with
        | Raise e => (Raise e, made dest fs)
        | Ok tmp =>
            match http_get n url with
            | Raise e =>
                (Raise e, {| files := <[ tmp := [] ]> (files fs);
                             dirs := dirs (made dest fs) |})
            | Ok (chunks, Some e) =>
                (Raise e, {| files := <[ tmp := mjoin chunks ]> (files fs);
                             dirs := dirs (made dest fs) |})
            | Ok (chunks, None) =>
                extractall dest (untar n (mjoin chunks))
                  {| files := <[ tmp := mjoin chunks ]> (files fs);
                     dirs := dirs (made dest fs) |}
            end
        end
    end.
Proof.
  unfold download_weights. change (negb false) with true. cbv iota.
  rewrite bind_run, makedirs_run.
  destruct (makedirs_error dest fs) as [e|]; [done |].
  rewrite bind_run, named_temporary_file_run.
  destruct (tmp_name n) as [tmp|e]; [| done].
  destruct (http_get n url) as [[chunks broken]|e] eqn:Hget.
  - rewrite (bind_ok _ _ _ _ _ (lift_ok _ _ _ eq_refl)).
    rewrite bind_run, (write_response_run _ _ _ [])
      by (simpl; apply lookup_insert_eq).
    simpl files. simpl dirs. rewrite insert_insert_eq. simpl app.
    unfold stream_end. simpl. destruct broken as [e|]; [done |].
    by erewrite bind_ok by (apply read_run; simpl; apply lookup_insert_eq).
  - by rewrite (bind_raise _ _ _ _ _ (lift_raise _ _ _ eq_refl)).
Qed.

(** [download_weights] with [file=True], step by step. *)
Lemma download_weights_file_run (n : Net) (url dest : string) (fs : FS) :
  download_weights n url dest true fs =
    match parent_error dest fs with
    | Some e => (Raise e, fs)
    | None =>
        match http_get n url with
        | Raise e => (Raise e, with_parent dest fs)
        | Ok response =>
            match open_error dest (with_parent dest fs) with
            | Some e => (Raise e, with_parent dest fs)
            | None =>
                (stream_end response,
                 {| files := <[ dest := mjoin response.1 ]> (files fs);
                    dirs := dirs (with_parent dest fs) |})
            end
        end
    end.
Proof.
  unfold download_weights, parent_error, with_parent.
  change (negb true) with false. cbv iota zeta.
  assert (Hfiles : files (if PyStr.is_empty (OsPath.dirname dest) then fs
                          else made (OsPath.dirname dest) fs) = files fs).
  { by destruct (PyStr.is_empty (OsPath.dirname dest)). }
  assert (Hdir :
    (if negb (PyStr.is_empty (OsPath.dirname dest))
     then makedirs (OsPath.dirname dest) else mret ()) fs
    = match (if PyStr.is_empty (OsPath.dirname dest) then None
             else makedirs_error (OsPath.dirname dest) fs) with
      | Some e => (Raise e, fs)
      | None => (Ok (), if PyStr.is_empty (OsPath.dirname dest) then fs
                        else made (OsPath.dirname dest) fs)
      end).
  { destruct (PyStr.is_empty (OsPath.dirname dest)); [done |].
    cbn [negb]. apply makedirs_run. }
  rewrite bind_run, Hdir.
  destruct (if PyStr.is_empty (OsPath.dirname dest) then None
            else makedirs_error (OsPath.dirname dest) fs) as [e|]; [done |].
  destruct (http_get n url) as [response|e] eqn:Hget.
  - rewrite (bind_ok _ _ _ _ _ (lift_ok _ _ _ eq_refl)).
    rewrite bind_run, create_run.
    destruct (open_error dest _) as [e|]; [done |].
    rewrite (write_response_run _ _ _ []) by (simpl; apply lookup_insert_eq).
    simpl. by rewrite insert_insert_eq, Hfiles.
  - by rewrite (bind_raise _ _ _ _ _ (lift_raise _ _ _ eq_refl)).
Qed.



(** ** Whole requests *)

(** [predict] on three requests: an inference that is retried, images that
    are all flagged, and a download that fails. *)
Example retry_sample :
  ∃ args,
    predict mismatched (request None None true) setup
    = (Ok ["/tmp/out-0.webp"],
       after setup
         [unload_lora_weights txt2img_pipe; to_cuda txt2img_pipe;
          run txt2img_pipe args; set_attn_processor txt2img_pipe;
          run txt2img_pipe args;
          save "/tmp/out-0.webp" (Image 0) (Some 80%Z)]).
Proof. eexists. vm_compute. reflexivity. Qed.

Example all_flagged_sample :
  ∃ args,
    predict prudish (request None None false) setup
    = (Raise (Exception NSFW_MESSAGE),
       after setup
         [unload_lora_weights txt2img_pipe; to_cuda txt2img_pipe;
          run txt2img_pipe args]).
Proof. eexists. vm_compute. reflexivity. Qed.

Example skipped_download_shifts_scales :
  (predict flaky
     (request (Some ["https://example.com/missing.safetensors";
                     "alvdansen/frosting_lane_flux"])
              (Some [1 # 4; 3 # 4]) true) setup).1 = Ok ["/tmp/out-0.webp"]
  ∧ lora_state
      (predict flaky
         (request (Some ["https://example.com/missing.safetensors";
                         "alvdansen/frosting_lane_flux"])
                  (Some [1 # 4; 3 # 4]) true) setup).2
    = (Loaded ["https://example.com/missing.safetensors";
               "alvdansen/frosting_lane_flux"],
       [unload_lora_weights txt2img_pipe;
        load_lora_weights txt2img_pipe "alvdansen/frosting_lane_flux" None (Some "a");
        set_adapters txt2img_pipe ["a"] [1 # 4]]).
Proof. split; vm_compute; reflexivity. Qed.

(** * Further properties *)

(** ** truncate_prompt with any limit *)

Lemma join_cons (w : string) (ws : list string) :
  String.length (PyStr.join " " (w :: ws))
    ≤ String.length w + 1 + String.length (PyStr.join " " ws).
Proof.
  destruct ws as [|w' ws]; [simpl; lia |].
  change (PyStr.join " " (w :: w' :: ws))
    with (w +:+ " " +:+ PyStr.join " " (w' :: ws)).
  rewrite !length_append. simpl. lia.
Qed.

Lemma length_join_take (ws : list string) : ∀ n,
  String.length (PyStr.join " " (take n ws)) ≤ String.length (PyStr.join " " ws).
Proof.
  induction ws as [|w ws IH]; intros n; [by destruct n |].
  destruct n as [|n]; [simpl; lia |].
  change (take (S n) (w :: ws)) with (w :: take n ws).
  pose proof (join_cons w (take n ws)) as H. specialize (IH n).
  destruct ws as [|w' ws].
  - rewrite take_nil in *. simpl in *. lia.
  - change (PyStr.join " " (w :: w' :: ws))
      with (w +:+ " " +:+ PyStr.join " " (w' :: ws)).
    rewrite !length_append. change (String.length " ") with 1. lia.
Qed.

Lemma length_join_split_go (s : string) : ∀ word,
  String.length (PyStr.join " " (PyStr.split_go word s))
    ≤ String.length word + String.length s.
Proof.
  induction s as [|c s IH]; intros word; simpl PyStr.split_go.
  - destruct (PyStr.is_empty word); simpl; lia.
  - destruct (PyStr.isspace c).
    + destruct (PyStr.is_empty word).
      * specialize (IH ""). simpl in *. lia.
      * pose proof (join_cons word (PyStr.split_go "" s)) as H.
        specialize (IH ""). simpl in *. lia.
    + specialize (IH (word +:+ String c "")).
      rewrite length_append in IH. simpl in *. lia.
Qed.

(** X1: for a limit that is not negative, the words of the result are the
    first [max_tokens] words of the prompt. *)
Theorem truncate_prompt_keeps_first_words (prompt : string) (max_tokens : Z) :
  (0 ≤ max_tokens)%Z →
  PyStr.split (truncate_prompt prompt max_tokens)
    = take (Z.to_nat max_tokens) (PyStr.split prompt).
Proof.
  intros H. rewrite <- (Z2Nat.id max_tokens H) at 1.
  rewrite split_truncate_prompt.
  destruct (Nat.leb_spec (length (PyStr.split prompt)) (Z.to_nat max_tokens));
    [| done].
  by rewrite take_ge.
Qed.

Lemma truncate_prompt_keeps_first_words_witness :
  PyStr.split (truncate_prompt "a  red pony, highly detailed" 3)
    = take 3 (PyStr.split "a  red pony, highly detailed").
Proof.
  refine (truncate_prompt_keeps_first_words "a  red pony, highly detailed" 3 _).
  lia.
Defined.

(** X2: a negative limit never leaves the prompt alone: the result is made
    of the words of the prompt without its last [- max_tokens] words, so that
    a prompt of that many words or fewer becomes empty. *)
Theorem truncate_prompt_negative_limit (prompt : string) (max_tokens : Z) :
  (max_tokens < 0)%Z →
  truncate_prompt prompt max_tokens
    = PyStr.join " "
        (take (length (PyStr.split prompt) - Z.to_nat (- max_tokens))
              (PyStr.split prompt))
  ∧ PyStr.split (truncate_prompt prompt max_tokens)
    = take (length (PyStr.split prompt) - Z.to_nat (- max_tokens))
           (PyStr.split prompt).
Proof.
  intros H.
  assert (E : truncate_prompt prompt max_tokens
    = PyStr.join " "
        (take (length (PyStr.split prompt) - Z.to_nat (- max_tokens))
              (PyStr.split prompt))).
  { unfold truncate_prompt, PyStr.slice_to.
    rewrite (proj2 (Z.leb_gt _ _)) by lia.
    by rewrite (proj2 (Z.leb_gt 0 max_tokens)) by lia. }
  split; [exact E |]. rewrite E.
  apply split_join, Forall_take, split_words.
Qed.

Lemma truncate_prompt_negative_limit_witness :
  truncate_prompt "a red pony" (-1)
    = PyStr.join " " (take (length (PyStr.split "a red pony") - Z.to_nat (- -1))
                           (PyStr.split "a red pony")).
Proof.
  refine (proj1 (truncate_prompt_negative_limit "a red pony" (-1) _)). lia.
Defined.

(** X3: whatever the limit, the result is never longer than the prompt. *)
Theorem truncate_prompt_never_longer (prompt : string) (max_tokens : Z) :
  String.length (truncate_prompt prompt max_tokens) ≤ String.length prompt.
Proof.
  unfold truncate_prompt.
  destruct (Z.of_nat (length (PyStr.split prompt)) <=? max_tokens)%Z; [done |].
  unfold PyStr.slice_to.
  pose proof (length_join_split_go prompt "") as H. simpl in H.
  destruct (0 <=? max_tokens)%Z;
    (etrans; [apply length_join_take | exact H]).
Qed.

(** ** make_multiple_of_16 *)

(** X4: [make_multiple_of_16 n] is the least multiple of 16 that is not
    below [n], for every integer [n]. *)
Theorem make_multiple_of_16_is_least_multiple (n : Z) :
  (make_multiple_of_16 n mod 16 = 0)%Z
  ∧ (n ≤ make_multiple_of_16 n < n + 16)%Z
  ∧ (∀ m, (m mod 16 = 0)%Z → (n ≤ m)%Z → (make_multiple_of_16 n ≤ m)%Z).
Proof.
  unfold make_multiple_of_16. split; [| split].
  - apply Z_mod_mult.
  - pose proof (Z.div_mod (n + 15) 16 ltac:(lia)) as Hd.
    pose proof (Z.mod_pos_bound (n + 15) 16 ltac:(lia)) as Hm. lia.
  - intros m Hm Hn.
    pose proof (Z.div_mod m 16 ltac:(lia)) as Hd. rewrite Hm in Hd.
    pose proof (Z.div_mod (n + 15) 16 ltac:(lia)) as Hd'.
    pose proof (Z.mod_pos_bound (n + 15) 16 ltac:(lia)) as Hm'. lia.
Qed.

(** X5: rounding is monotone, leaves multiples of 16 alone, and rounding
    twice is rounding once. *)
Theorem make_multiple_of_16_monotone_idempotent (n m : Z) :
  ((n ≤ m)%Z → (make_multiple_of_16 n ≤ make_multiple_of_16 m)%Z)
  ∧ ((n mod 16 = 0)%Z → make_multiple_of_16 n = n)
  ∧ make_multiple_of_16 (make_multiple_of_16 n) = make_multiple_of_16 n.
Proof.
  assert (Hfix : ∀ k, (k mod 16 = 0)%Z → make_multiple_of_16 k = k).
  { intros k Hk. unfold make_multiple_of_16.
    pose proof (Z.div_mod k 16 ltac:(lia)) as Hd. rewrite Hk in Hd.
    pose proof (Z.div_mod (k + 15) 16 ltac:(lia)) as Hd'.
    pose proof (Z.mod_pos_bound (k + 15) 16 ltac:(lia)) as Hm'. lia. }
  split; [| split].
  - intros H. unfold make_multiple_of_16.
    apply Z.mul_le_mono_nonneg_r; [lia |].
    apply Z.div_le_mono; lia.
  - apply Hfix.
  - apply Hfix. unfold make_multiple_of_16. apply Z_mod_mult.
Qed.

Lemma make_multiple_of_16_monotone_idempotent_witness :
  (make_multiple_of_16 1000 ≤ make_multiple_of_16 1440)%Z
  ∧ make_multiple_of_16 1440 = 1440%Z.
Proof.
  split.
  - refine (proj1 (make_multiple_of_16_monotone_idempotent 1000 1440) _). lia.
  - refine (proj1 (proj2 (make_multiple_of_16_monotone_idempotent 1440 0)) _).
    reflexivity.
Defined.

(** ** The aspect-ratio table *)

Lemma ASPECT_RATIOS_entries :
  map_Forall (λ (_ : string) (wh : Z * Z),
      (wh.1 mod 64 = 0 ∧ wh.2 mod 64 = 0
       ∧ 640 ≤ wh.1 ≤ 1536 ∧ 640 ≤ wh.2 ≤ 1536
       ∧ 974848 ≤ wh.1 * wh.2 ≤ 1048576)%Z) ASPECT_RATIOS.
Proof.
  intros key wh Hkey. unfold ASPECT_RATIOS in Hkey.
  apply elem_of_list_to_map_2 in Hkey.
  rewrite !elem_of_cons, elem_of_nil in Hkey.
  destruct_or!; try done; simplify_eq; simpl; repeat split; (reflexivity || lia).
Qed.

(** X6: an aspect ratio that the table knows gives a width and a height
    that are multiples of 64 between 640 and 1536, about one megapixel
    together, and already multiples of 16; the lookup changes nothing. *)
Theorem aspect_ratio_dimensions (aspect_ratio : string) (width height : Z)
    (st st' : Predictor) :
  aspect_ratio_to_width_height aspect_ratio st = (Ok (width, height), st') →
  st' = st
  ∧ (width mod 64 = 0 ∧ height mod 64 = 0)%Z
  ∧ (640 ≤ width ≤ 1536 ∧ 640 ≤ height ≤ 1536)%Z
  ∧ (974848 ≤ width * height ≤ 1048576)%Z
  ∧ make_multiple_of_16 width = width
  ∧ make_multiple_of_16 height = height.
Proof.
  unfold aspect_ratio_to_width_height.
  destruct (ASPECT_RATIOS !! aspect_ratio) as [[w h]|] eqn:E; [| done].
  intros [= -> -> ->].
  destruct (ASPECT_RATIOS_entries _ _ E) as (Hw & Hh & Hwr & Hhr & Ha).
  simpl in *. repeat split; try lia.
  - unfold make_multiple_of_16.
    pose proof (Z.div_mod width 64 ltac:(lia)) as Hd. rewrite Hw in Hd.
    pose proof (Z.div_mod (width + 15) 16 ltac:(lia)) as Hd'.
    pose proof (Z.mod_pos_bound (width + 15) 16 ltac:(lia)). lia.
  - unfold make_multiple_of_16.
    pose proof (Z.div_mod height 64 ltac:(lia)) as Hd. rewrite Hh in Hd.
    pose proof (Z.div_mod (height + 15) 16 ltac:(lia)) as Hd'.
    pose proof (Z.mod_pos_bound (height + 15) 16 ltac:(lia)). lia.
Qed.

Lemma aspect_ratio_dimensions_witness :
  (1344 mod 64 = 0 ∧ 768 mod 64 = 0)%Z.
Proof.
  refine (proj1 (proj2 (aspect_ratio_dimensions "16:9" 1344 768 setup setup _))).
  reflexivity.
Defined.

(** ** download_weights when something fails *)

(** X7: with [file=True], no file other than the destination is ever
    written, whatever the outcome; and when the request itself raises, the
    destination is not opened: a file that was there keeps its content, and
    the error that leaves is that of the request, unless the directory of
    the destination could not be made, which is found out first. *)
Theorem download_to_file_touches_only_dest (n : Net) (url dest : string) (fs : FS) :
  (∀ path, path ≠ dest →
     files (download_weights n url dest true fs).2 !! path = files fs !! path)
  ∧ (∀ e, http_get n url = Raise e →
       (download_weights n url dest true fs).1
         = Raise (default e (parent_error dest fs))
       ∧ files (download_weights n url dest true fs).2 = files fs).
Proof.
  rewrite download_weights_file_run.
  assert (Hfiles : files (with_parent dest fs) = files fs).
  { unfold with_parent. by destruct (PyStr.is_empty (OsPath.dirname dest)). }
  split.
  - intros path Hne. destruct (parent_error dest fs); [done |].
    destruct (http_get n url); simpl; [| by rewrite Hfiles].
    destruct (open_error dest _); simpl; [by rewrite Hfiles |].
    by rewrite lookup_insert_ne.
  - intros e ->. by destruct (parent_error dest fs).
Qed.

Lemma download_to_file_touches_only_dest_witness :
  (download_weights unreachable "https://example.com/lora.safetensors"
     "loras/style.safetensors" true
     {| files := {[ "loras/style.safetensors" := [Byte.x01] ]}; dirs := ∅ |}).1
  = Raise (OtherError "ConnectionError" "https://example.com/lora.safetensors")
  ∧ files (download_weights unreachable "https://example.com/lora.safetensors"
             "loras/style.safetensors" true
             {| files := {[ "loras/style.safetensors" := [Byte.x01] ]}; dirs := ∅ |}).2
    = {[ "loras/style.safetensors" := [Byte.x01] ]}.
Proof.
  refine (proj2 (download_to_file_touches_only_dest unreachable
            "https://example.com/lora.safetensors" "loras/style.safetensors"
            {| files := {[ "loras/style.safetensors" := [Byte.x01] ]}; dirs := ∅ |})
            _ _).
  reflexivity.
Defined.



(** ** The safety weights of setup *)

Lemma download_weights_archive_makes_dir (n : Net) (url dest : string) (fs : FS) :
  makedirs_error dest fs = None →
  dest ∈ dirs (download_weights n url dest false fs).2.
Proof.
  intros Hdest. rewrite download_weights_archive_run, Hdest.
  assert (Hin : dest ∈ dirs (made dest fs)) by (simpl; set_solver).
  destruct (tmp_name n) as [tmp|e]; [| done].
  destruct (http_get n url) as [[chunks [e|]]|e]; try done.
  destruct (extractall_prefix dest (untar n (mjoin chunks))
              {| files := <[ tmp := mjoin chunks ]> (files fs);
                 dirs := dirs (made dest fs) |})
    as (extracted & _ & _ & Hdirs & _).
  by apply Hdirs.
Qed.

(** X9: after a first [setup], whether its download succeeded or raised,
    the safety directory exists; every later [setup] therefore skips the
    download, makes no request and changes nothing, even when the first
    attempt left the directory empty. *)
Theorem safety_weights_are_fetched_at_most_once (n n' : Net) (fs : FS) :
  path_exists SAFETY_CACHE (setup_safety_cache n fs).2 = true
  ∧ setup_safety_cache n' (setup_safety_cache n fs).2
    = (Ok (), (setup_safety_cache n fs).2).
Proof.
  assert (H : path_exists SAFETY_CACHE (setup_safety_cache n fs).2 = true).
  { unfold setup_safety_cache.
    destruct (path_exists SAFETY_CACHE fs) eqn:E; [exact E |].
    change (negb false) with true. cbv iota.
    unfold path_exists. apply orb_true_iff. right.
    apply bool_decide_eq_true_2, download_weights_archive_makes_dir.
    unfold path_exists in E. apply orb_false_iff in E as [E _].
    unfold makedirs_error, isfile. rewrite E. reflexivity. }
  split; [exact H |].
  unfold setup_safety_cache at 1. by rewrite H.
Qed.

(** ** The loop of load_loras: slots, calls and failures *)

(** X10: when [load_loras] returns, it has made some [load_lora_weights]
    calls followed by one [set_adapters] call that names exactly one adapter
    per load call, all different and at most 26, and it remembers the list;
    with at least as many scales as identifiers there is one weight per
    name. *)
Theorem load_loras_names_one_adapter_per_load (w : World) (l : list string)
    (scales : list Q) (st st' : Predictor) :
  load_loras w l scales st = (Ok (), st') →
  ∃ loads adapter_names adapter_weights,
    calls st' = calls st ++ loads
                  ++ [set_adapters txt2img_pipe adapter_names adapter_weights]
    ∧ last_loaded_loras st' = Loaded l
    ∧ Forall (λ c, is_load c = true) loads
    ∧ length adapter_names = length loads
    ∧ length loads ≤ length l ∧ length loads ≤ 26
    ∧ NoDup adapter_names
    ∧ (length l ≤ length scales → length adapter_weights = length loads).
Proof.
  rewrite load_loras_run.
  destruct (load_each_calls w l 0 st) as (loads & Hst & Hl & Hr).
  destruct (load_each w 0 l st) as [[count|e] st1]; [| done].
  simpl in *. intros [= _ <-]. subst st1. destruct Hr as (-> & Hlen & H26).
  specialize (H26 ltac:(lia)). simpl in H26.
  exists loads, (take (length loads) names), (take (length loads) scales).
  simpl. rewrite <- List.app_assoc. repeat split; try done.
  - rewrite length_take. simpl. lia.
  - eapply sublist_NoDup; [apply names_NoDup | apply sublist_take].
  - intros H. rewrite length_take. lia.
Qed.

Lemma load_loras_names_one_adapter_per_load_witness :
  ∃ loads adapter_names adapter_weights,
    calls (load_loras flaky
             ["https://example.com/missing.safetensors";
              "alvdansen/frosting_lane_flux"] [1 # 4; 3 # 4] setup).2
      = calls setup ++ loads
          ++ [set_adapters txt2img_pipe adapter_names adapter_weights]
    ∧ length adapter_names = length loads
    ∧ length loads ≤ 2.
Proof.
  destruct (load_loras_names_one_adapter_per_load flaky
              ["https://example.com/missing.safetensors";
               "alvdansen/frosting_lane_flux"] [1 # 4; 3 # 4] setup
              (load_loras flaky
                 ["https://example.com/missing.safetensors";
                  "alvdansen/frosting_lane_flux"] [1 # 4; 3 # 4] setup).2
              ltac:(vm_compute; reflexivity))
    as (loads & ns & ws & H1 & _ & _ & H2 & H3 & _).
  exists loads, ns, ws. exact (conj H1 (conj H2 H3)).
Defined.

(** X11: [load_loras] can fail in two places.  When the loop raises, the
    remembered list is what it was, no [set_adapters] call was made, and the
    [load_lora_weights] calls made before the failure (fewer than there are
    identifiers) stay in effect.  When the loop completes and [set_adapters]
    raises, the list has been stored already (line 297 comes before line
    298): the request that failed is remembered as the one that is loaded. *)
Theorem load_loras_fails_in_the_loop_or_in_set_adapters (w : World)
    (l : list string) (scales : list Q) (e : exn) (st st' : Predictor) :
  load_loras w l scales st = (Raise e, st') →
  ∃ loads,
    Forall (λ c, is_load c = true) loads
    ∧ ((load_each w 0 l st = (Raise e, st')
        ∧ last_loaded_loras st' = last_loaded_loras st
        ∧ calls st' = calls st ++ loads
        ∧ length loads < length l)
       ∨ (load_each w 0 l st = (Ok (length loads), after st loads)
          ∧ activate w (calls st ++ loads) txt2img_pipe
              (take (length loads) names) (take (length loads) scales) = Raise e
          ∧ last_loaded_loras st' = Loaded l
          ∧ calls st' = calls st ++ loads
              ++ [set_adapters txt2img_pipe
                    (take (length loads) names) (take (length loads) scales)])).
Proof.
  rewrite load_loras_run.
  destruct (load_each_calls w l 0 st) as (loads & Hst & Hl & Hr).
  destruct (load_each w 0 l st) as [[count|e'] st1]; simpl in *; subst st1.
  - destruct Hr as (-> & _ & _). intros [= Hact <-].
    exists loads. split; [done |]. right. simpl.
    by rewrite <- List.app_assoc.
  - intros [= -> <-]. exists loads. split; [done |]. left. by repeat split.
Qed.

Lemma load_loras_fails_in_the_loop_or_in_set_adapters_witness :
  ∃ loads,
    Forall (λ c, is_load c = true) loads
    ∧ ((load_each flaky 0 ["https://example.com/missing.safetensors"] loaded_once
          = (Raise (KeyError "unet"),
             {| last_loaded_loras := Loaded ["https://example.com/missing.safetensors"];
                calls := calls loaded_once ++ [set_adapters txt2img_pipe [] []] |})
        ∧ last_loaded_loras
            {| last_loaded_loras := Loaded ["https://example.com/missing.safetensors"];
               calls := calls loaded_once ++ [set_adapters txt2img_pipe [] []] |}
          = last_loaded_loras loaded_once
        ∧ calls
            {| last_loaded_loras := Loaded ["https://example.com/missing.safetensors"];
               calls := calls loaded_once ++ [set_adapters txt2img_pipe [] []] |}
          = calls loaded_once ++ loads
        ∧ length loads < length ["https://example.com/missing.safetensors"])
       ∨ (load_each flaky 0 ["https://example.com/missing.safetensors"] loaded_once
            = (Ok (length loads), after loaded_once loads)
          ∧ activate flaky (calls loaded_once ++ loads) txt2img_pipe
              (take (length loads) names) (take (length loads) [1 # 2]) = Raise (KeyError "unet")
          ∧ last_loaded_loras
              {| last_loaded_loras := Loaded ["https://example.com/missing.safetensors"];
                 calls := calls loaded_once ++ [set_adapters txt2img_pipe [] []] |}
            = Loaded ["https://example.com/missing.safetensors"]
          ∧ calls
              {| last_loaded_loras := Loaded ["https://example.com/missing.safetensors"];
                 calls := calls loaded_once ++ [set_adapters txt2img_pipe [] []] |}
            = calls loaded_once ++ loads
                ++ [set_adapters txt2img_pipe
                      (take (length loads) names) (take (length loads) [1 # 2])])).
Proof.
  refine (load_loras_fails_in_the_loop_or_in_set_adapters flaky
            ["https://example.com/missing.safetensors"] [1 # 2] (KeyError "unet")
            loaded_once
            {| last_loaded_loras := Loaded ["https://example.com/missing.safetensors"];
               calls := calls loaded_once ++ [set_adapters txt2img_pipe [] []] |} _).
  vm_compute. reflexivity.
Defined.

(** X12: the pool has 26 names.  Once 26 slots are taken, an identifier
    whose weights resolve raises [IndexError] before any call is made; the
    only identifier that passes is a [.safetensors] URL whose download
    failed, which is skipped. *)
Theorem full_pool_raises_index_error (w : World) (count : nat) (x : string)
    (st : Predictor) :
  26 ≤ count →
  (∀ source,
     resolve w (decision_table x) x = Some source →
     load_one w count x st = (Raise (IndexError "list index out of range"), st))
  ∧ (∀ count' st',
       load_one w count x st = (Ok count', st') → count' = count ∧ st' = st).
Proof.
  intros Hc.
  assert (Hnone : names !! count = None).
  { apply lookup_ge_None. simpl. lia. }
  assert (Htail : ∀ f : string → call,
    (index names count ≫= λ a, emit (f a);; mret (S count)) st
      = (Raise (IndexError "list index out of range"), st)).
  { intros f. by rewrite load_tail, Hnone. }
  split.
  - intros source. unfold decision_table, load_one, resolve.
    destruct (Re.matches Re.SLUG x); [intros _; apply Htail |].
    destruct (Re.matches Re.REPLICATE x).
    { destruct (ensure w x false) as [dir|]; [| done]. intros _.
      erewrite bind_ok by reflexivity. apply Htail. }
    destruct (Re.matches Re.HF_URL x).
    { destruct (Re.group1 Re.HF_URL_SLUG_PREFIX Re.HF_URL_SLUG_GROUP x); [| done].
      intros _. erewrite bind_ok by reflexivity. apply Htail. }
    destruct (Re.matches Re.CIVITAI x).
    { destruct (ensure w x true) as [path|]; [| done]. intros _.
      erewrite bind_ok by reflexivity. apply Htail. }
    destruct (PyStr.endswith x ".safetensors"); [| done].
    destruct (ensure w x true) as [path|]; [| done]. intros _. apply Htail.
  - intros count' st' H.
    destruct (load_one_cases w count x st)
      as [[e He] | [He | (Hlt & _)]]; [congruence | | lia].
    rewrite He in H. by injection H as <- <-.
Qed.

Lemma full_pool_raises_index_error_witness :
  load_one online 26 "alvdansen/frosting_lane_flux" setup
    = (Raise (IndexError "list index out of range"), setup).
Proof.
  refine (proj1 (full_pool_raises_index_error online 26
            "alvdansen/frosting_lane_flux" setup _)
            ("alvdansen/frosting_lane_flux", None) _).
  - lia.
  - reflexivity.
Defined.

(** X13: in every branch but that of huggingface.co URLs, an identifier
    whose weights resolve is loaded under the letter of the current slot. *)
Theorem load_one_registers_under_slot_letter (w : World) (count : nat) (x : string)
    (src : string) (weight_name : option string) (st : Predictor) :
  count < 26 →
  decision_table x ≠ HuggingFaceUrl →
  resolve w (decision_table x) x = Some (src, weight_name) →
  ∃ letter,
    names !! count = Some letter
    ∧ weight_name = None
    ∧ load_one w count x st
      = (Ok (S count),
         after st [load_lora_weights txt2img_pipe src None (Some letter)]).
Proof.
  intros Hc Hhf.
  destruct (proj2 (names_lookup count) Hc) as [letter Hletter].
  exists letter. split; [done |]. revert Hhf H.
  assert (Htail : ∀ f : string → call,
    (index names count ≫= λ a, emit (f a);; mret (S count)) st
      = (Ok (S count), after st [f letter])).
  { intros f. by rewrite load_tail, Hletter. }
  unfold decision_table, load_one, resolve.
  destruct (Re.matches Re.SLUG x).
  { intros _ [= <- <-]. split; [done |].
    apply (Htail (λ a, load_lora_weights txt2img_pipe x None (Some a))). }
  destruct (Re.matches Re.REPLICATE x).
  { intros _. destruct (ensure w x false) as [dir|]; [| done].
    intros [= <- <-]. split; [done |]. erewrite bind_ok by reflexivity.
    apply (Htail (λ a, load_lora_weights txt2img_pipe _ None (Some a))). }
  destruct (Re.matches Re.HF_URL x); [done |].
  destruct (Re.matches Re.CIVITAI x).
  { intros _. destruct (ensure w x true) as [path|]; [| done].
    intros [= <- <-]. split; [done |]. erewrite bind_ok by reflexivity.
    apply (Htail (λ a, load_lora_weights txt2img_pipe _ None (Some a))). }
  destruct (PyStr.endswith x ".safetensors"); [| done].
  intros _. destruct (ensure w x true) as [path|]; [| done].
  intros [= <- <-]. split; [done |].
  apply (Htail (λ a, load_lora_weights txt2img_pipe _ None (Some a))).
Qed.

Lemma load_one_registers_under_slot_letter_witness :
  ∃ letter,
    names !! 2 = Some letter
    ∧ (None : option string) = None
    ∧ load_one online 2
        "https://civitai.com/api/download/models/12345?type=Model&format=SafeTensor"
        setup
      = (Ok 3,
         after setup
           [load_lora_weights txt2img_pipe
              "/cache/12345?type=Model&format=SafeTensor" None (Some letter)]).
Proof.
  refine (load_one_registers_under_slot_letter online 2
            "https://civitai.com/api/download/models/12345?type=Model&format=SafeTensor"
            "/cache/12345?type=Model&format=SafeTensor" None setup _ _ _).
  - lia.
  - discriminate.
  - reflexivity.
Defined.

(** X14: a huggingface.co URL that carries no [owner/name] path makes the
    loop body raise [AttributeError] (the failed search has no group), before
    any call and without taking a slot; [load_loras] then raises it too. *)
Theorem hf_url_without_slug_raises_attribute_error (w : World) (count : nat)
    (x : string) (post : list string) (scales : list Q) (st : Predictor) :
  decision_table x = HuggingFaceUrl →
  Re.group1 Re.HF_URL_SLUG_PREFIX Re.HF_URL_SLUG_GROUP x = None →
  load_one w count x st
    = (Raise (AttributeError "'NoneType' object has no attribute 'group'"), st)
  ∧ load_loras w (x :: post) scales st
    = (Raise (AttributeError "'NoneType' object has no attribute 'group'"), st).
Proof.
  intros Hx Hg.
  assert (H : ∀ c, load_one w c x st
    = (Raise (AttributeError "'NoneType' object has no attribute 'group'"), st)).
  { intros c. revert Hx. unfold decision_table, load_one.
    destruct (Re.matches Re.SLUG x); [done |].
    destruct (Re.matches Re.REPLICATE x); [done |].
    destruct (Re.matches Re.HF_URL x).
    - intros _. by rewrite Hg.
    - destruct (Re.matches Re.CIVITAI x); [done |].
      by destruct (PyStr.endswith x ".safetensors"). }
  split; [apply H |].
  rewrite load_loras_run. simpl load_each.
  by rewrite (bind_raise _ _ _ _ _ (H 0)).
Qed.

Lemma hf_url_without_slug_raises_attribute_error_witness :
  load_loras online ["https://huggingface.co/spaces"] [DEFAULT_LORA_SCALE] setup
    = (Raise (AttributeError "'NoneType' object has no attribute 'group'"), setup).
Proof.
  refine (proj2 (hf_url_without_slug_raises_attribute_error online 0
            "https://huggingface.co/spaces" [] [DEFAULT_LORA_SCALE] setup _ _));
    reflexivity.
Defined.

Lemma load_one_slug (w : World) (count : nat) (x letter : string) (st : Predictor) :
  Re.matches Re.SLUG x = true →
  names !! count = Some letter →
  load_one w count x st = (Ok (S count), after st [load_slug x letter]).
Proof.
  intros Hx Hl. unfold load_one. rewrite Hx.
  by rewrite (load_tail count st (λ a, load_lora_weights txt2img_pipe x None (Some a))), Hl.
Qed.

Lemma load_one_slug_full (w : World) (count : nat) (x : string) (st : Predictor) :
  Re.matches Re.SLUG x = true →
  names !! count = None →
  load_one w count x st = (Raise (IndexError "list index out of range"), st).
Proof.
  intros Hx Hl. unfold load_one. rewrite Hx.
  by rewrite (load_tail count st (λ a, load_lora_weights txt2img_pipe x None (Some a))), Hl.
Qed.

Lemma load_each_slugs (w : World) (l : list string) : ∀ count st,
  Forall (λ x, Re.matches Re.SLUG x = true) l →
  count + length l ≤ 26 →
  load_each w count l st
    = (Ok (count + length l), after st (zip_with load_slug l (drop count names))).
Proof.
  induction l as [|x l IH]; intros count st Hl Hc.
  - simpl. by rewrite Nat.add_0_r, after_nil.
  - apply Forall_cons in Hl as [Hx Hl]. simpl in Hc.
    destruct (proj2 (names_lookup count) ltac:(lia)) as [letter Hletter].
    simpl load_each.
    rewrite (bind_ok _ _ _ _ _ (load_one_slug w count x letter st Hx Hletter)).
    rewrite IH by (done || lia).
    rewrite (drop_S _ _ _ Hletter). simpl.
    rewrite after_after. by rewrite Nat.add_succ_r.
Qed.

Lemma zip_with_load_slug_names (l : list string) : ∀ letters,
  length l ≤ length letters →
  map adapter_name_of (zip_with load_slug l letters)
    = map Some (take (length l) letters).
Proof.
  induction l as [|x l IH]; intros [|letter letters] H; simpl in *; try done;
    try lia.
  f_equal. apply IH. lia.
Qed.

(** X15: on a list of hub slugs, [load_loras] loads the k-th slug under the
    k-th letter and calls [set_adapters] on the first [length l] letters
    (the very names that the loads registered) with the first [length l]
    scales, as long as there are at most 26 slugs; its outcome is then what
    [set_adapters] answers.  With more slugs, the first 26 are loaded, the
    27th raises [IndexError], no [set_adapters] call is made and the
    remembered list stays what it was. *)
Theorem load_loras_on_hub_slugs (w : World) (l : list string) (scales : list Q)
    (st : Predictor) :
  Forall (λ x, Re.matches Re.SLUG x = true) l →
  load_loras w l scales st =
    (if (length l <=? 26)%nat
     then (activate w (calls st ++ zip_with load_slug l names) txt2img_pipe
             (take (length l) names) (take (length l) scales),
           {| last_loaded_loras := Loaded l;
              calls := calls st ++ zip_with load_slug l names
                         ++ [set_adapters txt2img_pipe (take (length l) names)
                               (take (length l) scales)] |})
     else (Raise (IndexError "list index out of range"),
           after st (zip_with load_slug (take 26 l) names)))
  ∧ (length l ≤ 26 →
     map adapter_name_of (zip_with load_slug l names)
       = map Some (take (length l) names)).
Proof.
  intros Hl. split; [| intros H; by apply zip_with_load_slug_names].
  rewrite load_loras_run.
  destruct (Nat.leb_spec (length l) 26) as [Hc|Hc].
  - rewrite (load_each_slugs w l 0 st Hl) by (simpl; lia).
    simpl. by rewrite <- List.app_assoc.
  - rewrite <- (take_drop 26 l) at 1. rewrite load_each_app.
    assert (Htake : length (take 26 l) = 26) by (rewrite length_take; lia).
    rewrite (bind_ok _ _ _ _ _
               (load_each_slugs w (take 26 l) 0 st (Forall_take _ _ _ Hl)
                  ltac:(rewrite Htake; simpl; lia))).
    rewrite Htake. change (0 + 26) with 26.
    destruct (drop 26 l) as [|x rest] eqn:Hd.
    { apply (f_equal length) in Hd. rewrite length_drop in Hd. simpl in Hd. lia. }
    assert (Hx : Re.matches Re.SLUG x = true).
    { apply (Forall_drop _ 26) in Hl. rewrite Hd in Hl.
      by apply Forall_cons in Hl as [? _]. }
    by rewrite load_each_cons,
      (bind_raise _ _ _ _ _ (load_one_slug_full w 26 x _ Hx eq_refl)).
Qed.

Lemma load_loras_on_hub_slugs_witness :
  load_loras online ["alvdansen/frosting_lane_flux"; "owner/style"] [1 # 2; 1 # 3] setup
  = (Ok (),
     {| last_loaded_loras := Loaded ["alvdansen/frosting_lane_flux"; "owner/style"];
        calls := calls setup
                   ++ zip_with load_slug ["alvdansen/frosting_lane_flux"; "owner/style"] names
                   ++ [set_adapters txt2img_pipe (take 2 names) (take 2 [1 # 2; 1 # 3])] |}).
Proof.
  refine (proj1 (load_loras_on_hub_slugs online
            ["alvdansen/frosting_lane_flux"; "owner/style"] [1 # 2; 1 # 3] setup _)).
  repeat constructor.
Defined.

(** ** What the hub-slug pattern accepts *)

Section slug_pattern.
Import Re PyStr.

Lemma strip_prefix_spec (p s rest : string) :
  strip_prefix p s = Some rest ↔ s = p +:+ rest.
Proof.
  revert s. induction p as [|a p IH]; intros s.
  - simpl. split; [by intros [= ->] | by intros ->].
  - destruct s as [|b s]; simpl.
    + split; [done | discriminate].
    + change (String a p +:+ rest) with (String a (p +:+ rest)).
      destruct (Ascii.eqb_spec a b) as [->|Hne].
      * rewrite IH. split; [by intros -> | by intros [= ->]].
      * split; [done | intros [= ? ?]; by subst].
Qed.

Lemma run_plus_cons {A} (cls : ascii → bool) (c : ascii) (t : string)
    (k : string → option A) :
  run (PlusCls cls) (String c t) k =
    if cls c then orelse (run (PlusCls cls) t k) (k t) else None.
Proof. reflexivity. Qed.

Lemma is_Some_orelse {A} (x y : option A) :
  is_Some (orelse x y) ↔ is_Some x ∨ is_Some y.
Proof.
  destruct x as [a|]; simpl.
  - split; eauto.
  - split; [eauto |]. intros [H|H]; [by apply is_Some_None in H | done].
Qed.

(** A [[...]+] accepts exactly the non-empty runs of its class after which
    the rest of the pattern accepts. *)
Lemma run_plus_spec {A} (cls : ascii → bool) (k : string → option A) (s : string) :
  is_Some (run (PlusCls cls) s k) ↔
    ∃ u rest, s = u +:+ rest ∧ u ≠ "" ∧ all_in cls u = true ∧ is_Some (k rest).
Proof.
  induction s as [|c t IH].
  - split; [intros H; by apply is_Some_None in H |].
    intros (u & rest & Hs & Hu & _). by destruct u.
  - rewrite run_plus_cons. destruct (cls c) eqn:Hc.
    + rewrite is_Some_orelse, IH. split.
      * intros [(u & rest & -> & Hu & Hall & Hk) | Hk].
        -- exists (String c u), rest. simpl. by rewrite Hc, Hall.
        -- exists (String c ""), t. simpl. by rewrite Hc.
      * intros (u & rest & Hs & Hu & Hall & Hk).
        destruct u as [|c' u]; [done |].
        change (String c' u +:+ rest) with (String c' (u +:+ rest)) in Hs.
        injection Hs as <- ->. simpl in Hall.
        apply andb_true_iff in Hall as [_ Hall].
        destruct u as [|c'' u]; [by right |].
        left. exists (String c'' u), rest. by repeat split.
    + split; [intros H; by apply is_Some_None in H |].
      intros (u & rest & Hs & Hu & Hall & _).
      destruct u as [|c' u]; [done |].
      change (String c' u +:+ rest) with (String c' (u +:+ rest)) in Hs.
      injection Hs as <- ->. simpl in Hall. by rewrite Hc in Hall.
Qed.

Lemma run_dollar_spec (t : string) :
  is_Some (run Dollar t (λ _, Some ())) ↔ t = "" ∨ t = String newline "".
Proof.
  simpl. destruct t as [|c [|c' t]]; simpl.
  - split; eauto.
  - destruct (Ascii.eqb_spec c newline) as [->|Hne].
    + split; eauto.
    + split; [intros H; by apply is_Some_None in H |].
      intros [H|H]; [done | by injection H].
  - split; [intros H; by apply is_Some_None in H | by intros [H|H]].
Qed.

(** X16: the hub-slug test accepts exactly the strings [owner/name] with
    two non-empty parts of letters, digits, [_] and [-], optionally followed
    by one newline. *)
Theorem slug_pattern_accepts (s : string) :
  matches SLUG s = true ↔
    ∃ owner name tail,
      s = owner +:+ "/" +:+ name +:+ tail
      ∧ owner ≠ "" ∧ all_in slug_char owner = true
      ∧ name ≠ "" ∧ all_in slug_char name = true
      ∧ (tail = "" ∨ tail = String newline "").
Proof.
  assert (Hm : matches SLUG s = true
               ↔ is_Some (run SLUG s (λ _, Some ()))).
  { unfold matches. destruct (run SLUG s _) as [u|].
    - split; eauto.
    - split; [done | intros H; by apply is_Some_None in H]. }
  rewrite Hm. unfold SLUG.
  change (run (PlusCls slug_char;;; Lit "/";;; PlusCls slug_char;;; Dollar) s
            (λ _, Some ()))
    with (run (PlusCls slug_char) s
            (λ s1, run (Lit "/") s1
                     (λ s2, run (PlusCls slug_char) s2
                              (λ s3, run Dollar s3 (λ _, Some ()))))).
  rewrite run_plus_spec. split.
  - intros (owner & rest & -> & Ho & Hoa & Hk).
    change (run (Lit "/") rest
              (λ s2, run (PlusCls slug_char) s2
                       (λ s3, run Dollar s3 (λ _, Some ()))))
      with (match strip_prefix "/" rest with
            | Some s2 => run (PlusCls slug_char) s2
                           (λ s3, run Dollar s3 (λ _, Some ()))
            | None => None
            end) in Hk.
    destruct (strip_prefix "/" rest) as [rest'|] eqn:Hp;
      [| by apply is_Some_None in Hk].
    apply strip_prefix_spec in Hp as ->.
    apply run_plus_spec in Hk as (name & tail & -> & Hn & Hna & Hk).
    apply run_dollar_spec in Hk. exists owner, name, tail. by repeat split.
  - intros (owner & name & tail & -> & Ho & Hoa & Hn & Hna & Ht).
    exists owner, ("/" +:+ name +:+ tail). repeat split; try done.
    change (is_Some
              (match strip_prefix "/" ("/" +:+ name +:+ tail) with
               | Some s2 => run (PlusCls slug_char) s2
                              (λ s3, run Dollar s3 (λ _, Some ()))
               | None => None
               end)).
    rewrite (proj2 (strip_prefix_spec "/" _ (name +:+ tail)) eq_refl).
    apply run_plus_spec. exists name, tail.
    repeat split; try done. by apply run_dollar_spec.
Qed.

End slug_pattern.

(** ** predict: what reaches the adapters, and what fails before *)

Lemma generate_lora_state (w : World) (inp : Inputs) (st : Predictor) :
  inputs_ok w inp = true →
  lora_state (generate w inp st).2
    = lora_state (apply_loras w (pipe_of inp) (hf_loras inp) (lora_scales inp) st).2.
Proof.
  unfold inputs_ok, pipe_of. intros Hok. apply andb_true_iff in Hok as [Har Him].
  apply bool_decide_eq_true_1 in Har. destruct Har as [[width height] Har].
  unfold generate. rewrite bind_run. unfold aspect_ratio_to_width_height.
  rewrite Har. simpl. rewrite bind_run.
  assert (Hrest : ∀ p init,
    lora_state
      ((apply_loras w p (hf_loras inp) (lora_scales inp) ≫= λ jak,
          emit (to_cuda p);;
          run_inference w p
            {| arg_prompt :=
                 replicate (Z.to_nat (num_outputs inp)) (truncate_prompt (prompt inp) 75);
               arg_guidance_scale := guidance_scale inp;
               arg_seed := default (urandom w) (seed inp);
               arg_num_inference_steps := num_inference_steps inp;
               arg_width := width;
               arg_height := height;
               arg_image := init;
               arg_strength := match init with
                               | Some _ => Some (prompt_strength inp)
                               | None => None
                               end;
               arg_joint_attention_kwargs := jak |}) st).2
    = lora_state (apply_loras w p (hf_loras inp) (lora_scales inp) st).2).
  { intros p init. rewrite bind_run.
    destruct (apply_loras w p (hf_loras inp) (lora_scales inp) st)
      as [[jak|e] st1]; [| done].
    simpl snd.
    apply (preserves_bind (emit (to_cuda p))); [by apply preserves_emit |].
    intros _. apply preserves_run_inference. }
  destruct (input_image inp) as [path|].
  - rewrite bind_run. simpl lift.
    destruct (get_image w path) as [t|e]; [| done]. apply Hrest.
  - apply Hrest.
Qed.

Lemma predict_lora_state (w : World) (inp : Inputs) (st : Predictor) :
  inputs_ok w inp = true →
  lora_state (predict w inp st).2
    = lora_state (apply_loras w (pipe_of inp) (hf_loras inp) (lora_scales inp) st).2.
Proof.
  intros Hok. rewrite <- (generate_lora_state w inp st Hok).
  unfold predict. rewrite bind_run.
  destruct (generate w inp st) as [[images|e] st1]; [| done].
  apply preserves_save_outputs.
Qed.

(** X17: for inputs that pass the checks before the LoRA step, what a whole
    [predict] does to the adapters (the remembered list and the load, unload
    and [set_adapters] calls) is what its LoRA step does: moving to the GPU,
    inference, its retry and the saving of images add nothing. *)
Theorem predict_touches_adapters_only_in_lora_step (w : World) (inp : Inputs)
    (st : Predictor) :
  inputs_ok w inp = true →
  lora_state (predict w inp st).2
    = lora_state (apply_loras w (pipe_of inp) (hf_loras inp) (lora_scales inp) st).2.
Proof. apply predict_lora_state. Qed.

Lemma predict_touches_adapters_only_in_lora_step_witness :
  lora_state (predict mismatched (request (Some ["owner/style"]) None true) setup).2
    = lora_state (apply_loras mismatched txt2img_pipe (Some ["owner/style"]) None setup).2.
Proof.
  refine (predict_touches_adapters_only_in_lora_step mismatched
            (request (Some ["owner/style"]) None true) setup _).
  reflexivity.
Defined.

(** X18: an aspect ratio outside the table raises [KeyError], and an input
    image that cannot be opened raises the error of opening it; in both
    cases no call has been made on the pipelines and the predictor is
    unchanged. *)
Theorem predict_bad_inputs_fail_before_any_call (w : World) (inp : Inputs)
    (st : Predictor) :
  (ASPECT_RATIOS !! aspect_ratio inp = None →
     predict w inp st = (Raise (KeyError (aspect_ratio inp)), st))
  ∧ (∀ path e,
       is_Some (ASPECT_RATIOS !! aspect_ratio inp) →
       input_image inp = Some path →
       get_image w path = Raise e →
       predict w inp st = (Raise e, st)).
Proof.
  split.
  - intros H. unfold predict, generate, aspect_ratio_to_width_height.
    rewrite bind_run, bind_run, H. done.
  - intros path e [[width height] Har] Him Hget.
    unfold predict, generate, aspect_ratio_to_width_height.
    rewrite bind_run, bind_run, Har. simpl.
    rewrite bind_run, Him, bind_run. simpl lift. by rewrite Hget.
Qed.

Lemma predict_bad_inputs_fail_before_any_call_witness :
  predict online
    {| prompt := "a pony"; aspect_ratio := "7:5"; input_image := None;
       prompt_strength := 8 # 10; num_outputs := 1; num_inference_steps := 28;
       guidance_scale := 35 # 10; seed := None; output_format := "webp";
       output_quality := 80; hf_loras := None; lora_scales := None;
       disable_safety_checker := true |} loaded_once
  = (Raise (KeyError "7:5"), loaded_once).
Proof.
  refine (proj1 (predict_bad_inputs_fail_before_any_call online
            {| prompt := "a pony"; aspect_ratio := "7:5"; input_image := None;
               prompt_strength := 8 # 10; num_outputs := 1;
               num_inference_steps := 28; guidance_scale := 35 # 10;
               seed := None; output_format := "webp"; output_quality := 80;
               hf_loras := None; lora_scales := None;
               disable_safety_checker := true |} loaded_once) _).
  reflexivity.
Defined.

Lemma apply_loras_none (w : World) (p : pipe) (requested : option (list string))
    (scales : option (list Q)) (st : Predictor) :
  requested = None ∨ requested = Some [] →
  apply_loras w p requested scales st = (Ok None, after st [unload_lora_weights p]).
Proof. by intros [-> | ->]. Qed.

(** X19: the remembered list goes stale.  After a request without LoRAs
    (no list, or an empty one) has unloaded the adapters, a request for the
    list that was loaded before finds it remembered and loads nothing: over
    the two requests the only LoRA call is the unload, and inference of the
    second request runs without the adapters it names. *)
Theorem loras_are_not_restored_after_a_plain_request (w : World)
    (plain again : Inputs) (l : list string) (st : Predictor) :
  l ≠ [] →
  last_loaded_loras st = Loaded l →
  hf_loras plain = None ∨ hf_loras plain = Some [] →
  hf_loras again = Some l →
  inputs_ok w plain = true →
  inputs_ok w again = true →
  lora_state (predict w again (predict w plain st).2).2
    = (Loaded l,
       filter (λ c, is_lora_call c = true) (calls st)
         ++ [unload_lora_weights (pipe_of plain)]).
Proof.
  intros Hl Hlast Hplain Hagain Hok1 Hok2.
  assert (H1 : lora_state (predict w plain st).2
    = (Loaded l,
       filter (λ c, is_lora_call c = true) (calls st)
         ++ [unload_lora_weights (pipe_of plain)])).
  { rewrite (predict_lora_state w plain st Hok1).
    rewrite (apply_loras_none w _ _ _ st Hplain).
    unfold lora_state. simpl. rewrite Hlast, filter_app. done. }
  rewrite (predict_lora_state w again _ Hok2), Hagain.
  rewrite apply_loras_same; [done | done |].
  by injection H1.
Qed.

Lemma loras_are_not_restored_after_a_plain_request_witness :
  lora_state
    (predict online
       (request (Some ["alvdansen/frosting_lane_flux"]) None true)
       (predict online (request None None true) loaded_once).2).2
  = (Loaded ["alvdansen/frosting_lane_flux"],
     filter (λ c, is_lora_call c = true) (calls loaded_once)
       ++ [unload_lora_weights txt2img_pipe]).
Proof.
  refine (loras_are_not_restored_after_a_plain_request online
            (request None None true)
            (request (Some ["alvdansen/frosting_lane_flux"]) None true)
            ["alvdansen/frosting_lane_flux"] loaded_once _ _ _ _ _ _).
  - discriminate.
  - reflexivity.
  - left. reflexivity.
  - reflexivity.
  - reflexivity.
  - reflexivity.
Defined.

(** ** The returned paths *)

Lemma app_inv_tail (s1 : string) : ∀ s2 t, s1 +:+ t = s2 +:+ t → s1 = s2.
Proof.
  induction s1 as [|a s1 IH]; intros s2 t H.
  - destruct s2 as [|b s2]; [done |].
    apply (f_equal String.length) in H.
    rewrite !length_append in H. simpl in H. lia.
  - destruct s2 as [|b s2].
    + apply (f_equal String.length) in H.
      rewrite !length_append in H. simpl in H. lia.
    + change (String a (s1 +:+ t) = String b (s2 +:+ t)) in H.
      injection H as -> H. f_equal. by apply (IH s2 t).
Qed.

Lemma of_nat_inj (i j : nat) : PyStr.of_nat i = PyStr.of_nat j → i = j.
Proof.
  unfold PyStr.of_nat. intros H.
  assert (Hnn : ∀ n, Nat.to_uint n ≠ Decimal.Nil).
  { intros n. rewrite <- (DecimalNat.Unsigned.of_to n) at 1.
    rewrite DecimalNat.Unsigned.to_of. unfold Decimal.unorm.
    by destruct (Decimal.nzhead (Nat.to_uint n)). }
  apply (f_equal DecimalString.NilZero.uint_of_string) in H.
  rewrite !DecimalString.NilZero.usu in H by apply Hnn.
  injection H as H. by apply DecimalNat.Unsigned.to_uint_inj.
Qed.

Lemma output_path_inj (fmt : string) (i j : nat) :
  output_path i fmt = output_path j fmt → i = j.
Proof.
  unfold output_path. intros H.
  apply (inj (String.append "/tmp/out-")) in H.
  apply app_inv_tail in H. by apply of_nat_inj.
Qed.

Lemma seq_StronglySorted (n : nat) : ∀ k, StronglySorted lt (seq k n).
Proof.
  induction n as [|n IH]; intros k; simpl; constructor; [apply IH |].
  apply Forall_forall. intros x Hx. apply elem_of_seq in Hx. lia.
Qed.

Lemma sublist_StronglySorted (l1 l2 : list nat) :
  StronglySorted lt l2 → l1 `sublist_of` l2 → StronglySorted lt l1.
Proof.
  intros Hs Hsub. induction Hsub as [|x l1 l2 Hsub IH|x l1 l2 Hsub IH].
  - constructor.
  - apply StronglySorted_inv in Hs as [Hs Hall]. constructor; [by apply IH |].
    rewrite Forall_forall in Hall. apply Forall_forall. intros y Hy.
    apply Hall. by eapply elem_of_sublist.
  - apply StronglySorted_inv in Hs as [Hs _]. by apply IH.
Qed.

(** The loop over the images: the paths it adds are those of some of the
    indices, in increasing order, and each was saved by its own call. *)
Lemma save_each_paths (d : bool) (flags : list bool) (fmt : string) (q : Z)
    (images : list image) : ∀ i acc st paths st',
  save_each d flags fmt q i images acc st = (Ok paths, st') →
  ∃ idx saved,
    paths = acc ++ map (λ j, output_path j fmt) idx
    ∧ idx `sublist_of` seq i (length images)
    ∧ calls st' = calls st ++ saved
    ∧ map saved_path saved = map (λ j, Some (output_path j fmt)) idx.
Proof.
  induction images as [|img images IH]; intros i acc st paths st' H.
  - injection H as <- <-. exists [], []. simpl.
    by rewrite !List.app_nil_r.
  - simpl save_each in H. rewrite bind_run in H.
    destruct ((if d then mret false else index flags i) st)
      as [[flagged|e] st0] eqn:Hflag; [| done].
    assert (st0 = st) as ->.
    { destruct d; [by injection Hflag |].
      unfold index in Hflag. destruct (flags !! i); by injection Hflag. }
    destruct flagged.
    + destruct (IH _ _ _ _ _ H) as (idx & saved & -> & Hsub & Hcalls & Hsaved).
      exists idx, saved. repeat split; try done.
      simpl. by apply sublist_cons.
    + rewrite (bind_ok _ _ _ _ _ (emit_run _ st)) in H.
      destruct (IH _ _ _ _ _ H) as (idx & saved & -> & Hsub & Hcalls & Hsaved).
      exists (i :: idx), (save (output_path i fmt) img
                            (if String.eqb fmt "png" then None else Some q) :: saved).
      repeat split.
      * by rewrite <- List.app_assoc.
      * simpl. by apply sublist_skip.
      * rewrite Hcalls. simpl. by rewrite <- List.app_assoc.
      * simpl. by rewrite Hsaved.
Qed.

(** X20: when [predict] returns, it returns at least one path; the paths
    are pairwise different, each is [/tmp/out-i.format] for the index [i] of
    an image, in increasing order of [i]; and the last calls of the request
    are exactly one [save] per returned path, in the same order. *)
Theorem predict_returns_distinct_saved_paths (w : World) (inp : Inputs)
    (paths : list string) (st st' : Predictor) :
  predict w inp st = (Ok paths, st') →
  paths ≠ []
  ∧ NoDup paths
  ∧ ∃ idx earlier saved,
      paths = map (λ i, output_path i (output_format inp)) idx
      ∧ StronglySorted lt idx
      ∧ calls st' = earlier ++ saved
      ∧ map saved_path saved = map Some paths.
Proof.
  unfold predict. rewrite bind_run.
  destruct (generate w inp st) as [[images|e] st1]; [| done].
  unfold save_outputs. rewrite bind_run.
  destruct (save_each _ _ _ _ 0 images [] st1) as [[out|e] st2] eqn:Hsave; [| done].
  destruct (save_each_paths _ _ _ _ _ _ _ _ _ _ Hsave)
    as (idx & saved & Hout & Hsub & Hcalls & Hsaved).
  simpl in Hout. subst out.
  destruct (length (map _ idx) =? 0)%nat eqn:Hlen; [done |].
  intros [= <- <-].
  assert (Hnd : NoDup idx).
  { eapply sublist_NoDup; [apply NoDup_seq | done]. }
  split; [| split].
  - apply Nat.eqb_neq in Hlen. by destruct idx.
  - apply NoDup_fmap_2_strong; [| done].
    intros i j _ _ Hij. by apply output_path_inj in Hij.
  - exists idx, (calls st1), saved. repeat split; try done.
    + eapply sublist_StronglySorted; [apply seq_StronglySorted | done].
    + rewrite Hsaved. by rewrite <- list_fmap_compose.
Qed.


Lemma predict_returns_distinct_saved_paths_witness :
  ["/tmp/out-0.webp"] ≠ [] ∧ NoDup ["/tmp/out-0.webp"].
Proof.
  pose proof (predict_returns_distinct_saved_paths online (request None None true)
                ["/tmp/out-0.webp"] setup
                (predict online (request None None true) setup).2
                ltac:(vm_compute; reflexivity)) as H.
  exact (conj (proj1 H) (proj1 (proj2 H))).
Defined.

(** ** patch_unet_get_aug_embed *)

Lemma fill_default_spec (kwargs : gmap string kwarg) (key : string) (width : Z)
    (dt : dtype) (conds conds' : gmap string tensor_value) :
  fill_default kwargs key width dt conds = Ok conds' →
  conds ⊆ conds'
  ∧ (∀ k, k ≠ key → conds' !! k = conds !! k)
  ∧ match conds !! key with
    | Some t => conds' = conds
    | None => ∃ b, sample_batch_size kwargs = Ok b
                   ∧ conds' = <[ key := Zeros [b; width] dt ]> conds
    end.
Proof.
  unfold fill_default. destruct (conds !! key) as [t|] eqn:Hkey.
  - by intros [= <-].
  - destruct (sample_batch_size kwargs) as [b|e]; [| done].
    intros [= <-]. split; [by apply insert_subseteq |].
    split; [intros k Hk; by rewrite lookup_insert_ne | eauto].
Qed.

Lemma sample_batch_size_insert (kwargs : gmap string kwarg) (v : kwarg) :
  sample_batch_size (<[ "added_cond_kwargs" := v ]> kwargs) = sample_batch_size kwargs.
Proof. unfold sample_batch_size. by rewrite lookup_insert_ne. Qed.

Lemma fill_default_insert (kwargs : gmap string kwarg) (v : kwarg) (key : string)
    (width : Z) (dt : dtype) (conds : gmap string tensor_value) :
  fill_default (<[ "added_cond_kwargs" := v ]> kwargs) key width dt conds
    = fill_default kwargs key width dt conds.
Proof. unfold fill_default. by rewrite sample_batch_size_insert. Qed.

Lemma patched_kwargs_run (kwargs : gmap string kwarg) :
  patched_kwargs kwargs =
    match given_conds kwargs with
    | Some conds =>
        match fill_default kwargs "text_embeds" 1280 torch_float conds with
        | Ok conds1 =>
            match fill_default kwargs "time_ids" 6 torch_long conds1 with
            | Ok conds2 => Ok (<[ "added_cond_kwargs" := KDict conds2 ]> kwargs)
            | Raise e => Raise e
            end
        | Raise e => Raise e
        end
    | None =>
        Raise (RuntimeError
          "Tensor.__contains__ only supports Tensor or scalar, but you passed in a <class 'str'>.")
    end.
Proof.
  unfold patched_kwargs, given_conds.
  destruct (kwargs !! "added_cond_kwargs") as [[|t|conds]|] eqn:E; cbv zeta.
  - rewrite lookup_insert_eq, !fill_default_insert.
    destruct (fill_default kwargs "text_embeds" 1280 torch_float ∅) as [c1|]; [| done].
    rewrite fill_default_insert.
    destruct (fill_default kwargs "time_ids" 6 torch_long c1); [| done].
    by rewrite insert_insert_eq.
  - by rewrite E.
  - by rewrite E.
  - rewrite lookup_insert_eq, !fill_default_insert.
    destruct (fill_default kwargs "text_embeds" 1280 torch_float ∅) as [c1|]; [| done].
    rewrite fill_default_insert.
    destruct (fill_default kwargs "time_ids" 6 torch_long c1); [| done].
    by rewrite insert_insert_eq.
Qed.

(** What the patch hands on, when it hands anything on. *)
Lemma patched_kwargs_spec (kwargs kwargs' : gmap string kwarg) :
  patched_kwargs kwargs = Ok kwargs' →
  ∃ conds conds',
    given_conds kwargs = Some conds
    ∧ kwargs' = <[ "added_cond_kwargs" := KDict conds' ]> kwargs
    ∧ conds ⊆ conds'
    ∧ is_Some (conds' !! "text_embeds") ∧ is_Some (conds' !! "time_ids")
    ∧ (∀ k, k ≠ "text_embeds" → k ≠ "time_ids" → conds' !! k = conds !! k)
    ∧ (conds !! "text_embeds" = None →
         ∃ b, sample_batch_size kwargs = Ok b
              ∧ conds' !! "text_embeds" = Some (Zeros [b; 1280%Z] torch_float))
    ∧ (conds !! "time_ids" = None →
         ∃ b, sample_batch_size kwargs = Ok b
              ∧ conds' !! "time_ids" = Some (Zeros [b; 6%Z] torch_long)).
Proof.
  rewrite patched_kwargs_run.
  destruct (given_conds kwargs) as [conds|]; [| done].
  destruct (fill_default kwargs "text_embeds" 1280 torch_float conds)
    as [c1|] eqn:H1; [| done].
  destruct (fill_default kwargs "time_ids" 6 torch_long c1) as [c2|] eqn:H2; [| done].
  intros [= <-]. exists conds, c2.
  apply fill_default_spec in H1 as (Hs1 & Ho1 & Hk1).
  apply fill_default_spec in H2 as (Hs2 & Ho2 & Hk2).
  assert (Hte : c1 !! "time_ids" = conds !! "time_ids") by (by apply Ho1).
  assert (Htt : c2 !! "text_embeds" = c1 !! "text_embeds") by (by apply Ho2).
  split; [done |]. split; [done |]. split; [by etrans |].
  repeat split.
  - rewrite Htt. destruct (conds !! "text_embeds") eqn:E.
    + subst c1. rewrite E. eauto.
    + destruct Hk1 as (b & _ & ->). rewrite lookup_insert_eq. eauto.
  - destruct (c1 !! "time_ids") eqn:E.
    + subst c2. rewrite E. eauto.
    + destruct Hk2 as (b & _ & ->). rewrite lookup_insert_eq. eauto.
  - intros k Hk1' Hk2'. rewrite Ho2, Ho1 by done. done.
  - intros E. rewrite E in Hk1. destruct Hk1 as (b & Hb & ->).
    exists b. split; [done |]. rewrite Htt. by rewrite lookup_insert_eq.
  - intros E. rewrite <- Hte in E. rewrite E in Hk2.
    destruct Hk2 as (b & Hb & ->). exists b. split; [done |].
    by rewrite lookup_insert_eq.
Qed.

(** X21: when the patched method reaches the method it wraps, it calls it
    with the same positional arguments and with keyword arguments that
    differ only in [added_cond_kwargs], which is now a dict that holds
    [text_embeds] and [time_ids] and every entry the caller had supplied,
    unchanged. *)
Theorem patch_completes_added_cond_kwargs {R}
    (get_aug_embed : list kwarg → gmap string kwarg → result R)
    (args : list kwarg) (kwargs kwargs' : gmap string kwarg) :
  patched_kwargs kwargs = Ok kwargs' →
  patch_unet_get_aug_embed get_aug_embed args kwargs = get_aug_embed args kwargs'
  ∧ (∀ key, key ≠ "added_cond_kwargs" → kwargs' !! key = kwargs !! key)
  ∧ ∃ conds',
      kwargs' !! "added_cond_kwargs" = Some (KDict conds')
      ∧ is_Some (conds' !! "text_embeds")
      ∧ is_Some (conds' !! "time_ids")
      ∧ (∀ conds, kwargs !! "added_cond_kwargs" = Some (KDict conds) →
           conds ⊆ conds'
           ∧ ∀ k, k ≠ "text_embeds" → k ≠ "time_ids" → conds' !! k = conds !! k).
Proof.
  intros H. split.
  { unfold patch_unet_get_aug_embed, patched_method. by rewrite H. }
  destruct (patched_kwargs_spec _ _ H)
    as (conds & conds' & Hg & -> & Hsub & Ht & Hi & Hother & _).
  split; [intros key Hkey; by rewrite lookup_insert_ne |].
  exists conds'. rewrite lookup_insert_eq. repeat split; try done.
  - unfold given_conds in Hg. rewrite H0 in Hg. by injection Hg as <-.
  - unfold given_conds in Hg. rewrite H0 in Hg. injection Hg as <-.
    by apply Hother.
Qed.

(** X22: an entry that the patch has to add is a tensor of zeros with one
    row per sample: [(b, 1280)] floats for [text_embeds] and [(b, 6)] longs
    for [time_ids], where [b] is the first dimension of the [sample] keyword
    argument, or 1 when there is none. *)
Theorem patch_defaults_follow_the_batch (kwargs kwargs' : gmap string kwarg)
    (conds conds' : gmap string tensor_value) :
  patched_kwargs kwargs = Ok kwargs' →
  given_conds kwargs = Some conds →
  kwargs' !! "added_cond_kwargs" = Some (KDict conds') →
  (conds !! "text_embeds" = None →
     ∃ b, sample_batch_size kwargs = Ok b
          ∧ conds' !! "text_embeds" = Some (Zeros [b; 1280%Z] torch_float))
  ∧ (conds !! "time_ids" = None →
       ∃ b, sample_batch_size kwargs = Ok b
            ∧ conds' !! "time_ids" = Some (Zeros [b; 6%Z] torch_long))
  ∧ (kwargs !! "sample" = None → sample_batch_size kwargs = Ok 1%Z)
  ∧ (∀ t b rest, kwargs !! "sample" = Some (KTensor t) →
       shape_of t = b :: rest → sample_batch_size kwargs = Ok b).
Proof.
  intros H Hg Hk.
  destruct (patched_kwargs_spec _ _ H)
    as (c & c' & Hg' & -> & _ & _ & _ & _ & Ht & Hi).
  rewrite Hg in Hg'. injection Hg' as <-.
  rewrite lookup_insert_eq in Hk. injection Hk as <-.
  split; [done |]. split; [done |]. split.
  - intros Hs. unfold sample_batch_size. by rewrite Hs.
  - intros t b rest Hs Hshape. unfold sample_batch_size. by rewrite Hs, Hshape.
Qed.

Lemma patched_kwargs_idempotent (kwargs kwargs' : gmap string kwarg) :
  patched_kwargs kwargs = Ok kwargs' → patched_kwargs kwargs' = Ok kwargs'.
Proof.
  intros H.
  destruct (patched_kwargs_spec _ _ H)
    as (conds & conds' & _ & -> & _ & [t Ht] & [i Hi] & _).
  rewrite patched_kwargs_run. unfold given_conds. rewrite lookup_insert_eq.
  unfold fill_default. rewrite Ht, Hi. by rewrite insert_insert_eq.
Qed.

(** X23: [setup] patches the UNet twice, once through each pipeline, since
    both share it.  The method patched twice behaves as the method patched
    once, on all arguments. *)
Theorem patching_twice_is_patching_once {R}
    (get_aug_embed : list kwarg → gmap string kwarg → result R)
    (args : list kwarg) (kwargs : gmap string kwarg) :
  patch_unet_get_aug_embed (patch_unet_get_aug_embed get_aug_embed) args kwargs
    = patch_unet_get_aug_embed get_aug_embed args kwargs.
Proof.
  unfold patch_unet_get_aug_embed, patched_method.
  destruct (patched_kwargs kwargs) as [kwargs'|e] eqn:H; [| done].
  by rewrite (patched_kwargs_idempotent _ _ H).
Qed.

(** X24: the patch raises, without calling the wrapped method, exactly when
    [added_cond_kwargs] is a tensor, or when an entry is missing and the
    batch size cannot be read off [sample] (it is [None], a dict, or a
    tensor without dimensions). *)
Theorem patch_raises_only_on_unusable_arguments (kwargs : gmap string kwarg) :
  (∃ e, patched_kwargs kwargs = Raise e) ↔
    given_conds kwargs = None
    ∨ ∃ conds e,
        given_conds kwargs = Some conds
        ∧ sample_batch_size kwargs = Raise e
        ∧ (conds !! "text_embeds" = None ∨ conds !! "time_ids" = None).
Proof.
  rewrite patched_kwargs_run.
  destruct (given_conds kwargs) as [conds|]; [| split; eauto].
  unfold fill_default.
  destruct (conds !! "text_embeds") as [t|] eqn:Ht.
  - destruct (conds !! "time_ids") as [i|] eqn:Hi.
    + split; [by intros [e [=]] |].
      intros [[=] | (c & e & [= <-] & _ & [H|H])]; congruence.
    + destruct (sample_batch_size kwargs) as [b|e] eqn:Hb.
      * split; [by intros [e [=]] |].
        intros [[=] | (c & e & _ & [=] & _)].
      * split; [| eauto]. intros _. right. exists conds, e. eauto.
  - destruct (sample_batch_size kwargs) as [b|e] eqn:Hb.
    + destruct (<[ "text_embeds" := Zeros [b; 1280%Z] torch_float ]> conds !! "time_ids");
        (split; [by intros [e [=]] | intros [[=] | (c & e & _ & [=] & _)]]).
    + split; [| eauto]. intros _. right. exists conds, e. eauto.
Qed.

Lemma patch_completes_added_cond_kwargs_witness :
  patch_unet_get_aug_embed (λ _ kwargs, Ok kwargs) [] two_samples
  = Ok two_samples_patched.
Proof.
  refine (proj1 (patch_completes_added_cond_kwargs (λ _ kwargs, Ok kwargs) []
            two_samples two_samples_patched _)).
  vm_compute. reflexivity.
Defined.

Lemma patch_defaults_follow_the_batch_witness :
  ∃ b, sample_batch_size two_samples = Ok b
       ∧ two_samples_conds !! "text_embeds" = Some (Zeros [b; 1280%Z] torch_float).
Proof.
  refine (proj1 (patch_defaults_follow_the_batch two_samples two_samples_patched
            ∅ two_samples_conds _ _ _) _).
  - vm_compute. reflexivity.
  - reflexivity.
  - apply lookup_insert_eq.
  - reflexivity.
Defined.

(** ** When the remembered list changes *)

(** X25: on a new non-empty list, the LoRA step of [predict] updates the
    remembered list exactly when it hands a scale list to [load_loras] and
    the loop of [load_loras] runs to its end, whether or not [set_adapters]
    then returns.  When the loop raises, or when two or more but too few
    scales are given, the remembered list stays what it was although the
    adapters were unloaded, so the same request is not skipped next time.
    When the list is remembered, be it after a [set_adapters] that raised,
    the same request finds nothing to do next time. *)
Theorem remembered_list_changes_when_the_loop_completes (w : World) (p : pipe)
    (l : list string) (lora_scales : option (list Q)) (st : Predictor) :
  l ≠ [] →
  last_loaded_loras st ≠ Loaded l →
  last_loaded_loras (apply_loras w p (Some l) lora_scales st).2 =
    match scales_for (length l) lora_scales,
          (load_each w 0 l (after st [unload_lora_weights p])).1 with
    | Some _, Ok _ => Loaded l
    | _, _ => last_loaded_loras st
    end
  ∧ (∃ more, calls (apply_loras w p (Some l) lora_scales st).2
               = calls st ++ unload_lora_weights p :: more)
  ∧ (last_loaded_loras (apply_loras w p (Some l) lora_scales st).2 = Loaded l →
     ∀ p' lora_scales',
       apply_loras w p' (Some l) lora_scales'
         (apply_loras w p (Some l) lora_scales st).2
       = (Ok (Some 1%Q), (apply_loras w p (Some l) lora_scales st).2)).
Proof.
  intros Hl Hlast. split; [| split].
  - rewrite apply_loras_new by done.
    destruct (scales_for (length l) lora_scales) as [scales|]; [| done].
    rewrite bind_run, load_loras_run.
    destruct (load_each_calls w l 0 (after st [unload_lora_weights p]))
      as (loads & Hst & _ & _).
    destruct (load_each w 0 l (after st [unload_lora_weights p]))
      as [[count|e] st1]; simpl in *; subst st1; simpl; [| done].
    by destruct (activate w _ _ _ _).
  - rewrite apply_loras_new by done.
    destruct (scales_for (length l) lora_scales) as [scales|]; [| simpl; eauto].
    rewrite bind_run, load_loras_run.
    destruct (load_each_calls w l 0 (after st [unload_lora_weights p]))
      as (loads & Hst & _ & _).
    destruct (load_each w 0 l (after st [unload_lora_weights p]))
      as [[count|e] st1]; simpl in *; subst st1; simpl.
    + destruct (activate w _ _ _ _); simpl;
        rewrite <- !List.app_assoc; simpl; eauto.
    + rewrite <- !List.app_assoc. simpl. eauto.
  - intros Hnow p' lora_scales'. by apply apply_loras_same.
Qed.

Lemma remembered_list_changes_when_the_loop_completes_witness :
  last_loaded_loras
    (apply_loras online txt2img_pipe
       (Some ["https://huggingface.co/owner/repo/resolve/main/lora.safetensors"])
       None loaded_once).2
  = match scales_for
            (length ["https://huggingface.co/owner/repo/resolve/main/lora.safetensors"])
            None,
          (load_each online 0
             ["https://huggingface.co/owner/repo/resolve/main/lora.safetensors"]
             (after loaded_once [unload_lora_weights txt2img_pipe])).1 with
    | Some _, Ok _ =>
        Loaded ["https://huggingface.co/owner/repo/resolve/main/lora.safetensors"]
    | _, _ => last_loaded_loras loaded_once
    end.
Proof.
  refine (proj1 (remembered_list_changes_when_the_loop_completes online
            txt2img_pipe
            ["https://huggingface.co/owner/repo/resolve/main/lora.safetensors"]
            None loaded_once _ _));
    discriminate.
Defined.

(** ** What the pipeline is run with *)

Section appends.
Context (P : call → Prop).

Lemma appends_ret {A} (a : A) : appends P (mret a).
Proof. intros st. exists []. by rewrite List.app_nil_r. Qed.

Lemma appends_raise {A} (e : exn) : appends P (raise (A := A) e).
Proof. intros st. exists []. by rewrite List.app_nil_r. Qed.

Lemma appends_lift {A} (r : result A) : appends P (lift r).
Proof. intros st. exists []. by rewrite List.app_nil_r. Qed.

Lemma appends_index {A} (l : list A) (i : nat) : appends P (index l i).
Proof. unfold index. destruct (l !! i); [apply appends_ret | apply appends_raise]. Qed.

Lemma appends_emit (c : call) : P c → appends P (emit c).
Proof. intros Hc st. exists [c]. split; [done | by constructor]. Qed.

Lemma appends_bind {A B} (m : St Predictor A) (f : A → St Predictor B) :
  appends P m → (∀ a, appends P (f a)) → appends P (m ≫= f).
Proof.
  intros Hm Hf st. rewrite bind_run. destruct (Hm st) as (new & Hnew & HP).
  destruct (m st) as [[a|e] st1]; simpl in *; [| eauto].
  destruct (Hf a st1) as (new' & Hnew' & HP').
  exists (new ++ new'). rewrite Hnew', Hnew, <- List.app_assoc.
  split; [done | by apply Forall_app].
Qed.

Lemma appends_load_each (w : World) (l : list string) (count : nat) :
  (∀ c, is_load c = true → P c) → appends P (load_each w count l).
Proof.
  intros HP st. destruct (load_each_calls w l count st) as (loads & -> & Hl & _).
  exists loads. split; [done |]. eapply Forall_impl; [done | apply HP].
Qed.

Lemma appends_apply_loras (w : World) (p : pipe) (requested : option (list string))
    (scales : option (list Q)) :
  (∀ c, is_lora_call c = true → P c) →
  appends P (apply_loras w p requested scales).
Proof.
  intros HP.
  assert (Hload : ∀ l s, appends P (load_loras w l s)).
  { intros l s. unfold load_loras. apply appends_bind.
    - apply appends_load_each. intros c Hc. apply HP. by destruct c.
    - intros count. apply appends_bind.
      + intros st. exists []. by rewrite List.app_nil_r.
      + intros _. unfold call_set_adapters. apply appends_bind.
        { intros st. exists []. by rewrite List.app_nil_r. }
        intros st0. apply appends_bind; [by apply appends_emit, HP |].
        intros _. apply appends_lift. }
  unfold apply_loras. destruct requested as [[|x xs]|];
    try (apply appends_bind; [by apply appends_emit, HP | intros _; apply appends_ret]).
  apply appends_bind; [| intros st0].
  { intros st. exists []. by rewrite List.app_nil_r. }
  apply appends_bind; [| intros _; apply appends_ret].
  destruct (bool_decide _); [| apply appends_ret].
  apply appends_bind; [by apply appends_emit, HP | intros _].
  destruct scales as [[|s1 [|s2 rest]]|]; try apply Hload.
  destruct (_ <=? _)%nat; [apply Hload | apply appends_ret].
Qed.

Lemma appends_run_inference (w : World) (p : pipe) (args : pipe_args) :
  P (run p args) → P (set_attn_processor p) →
  appends P (run_inference w p args).
Proof.
  intros Hrun Hattn st. rewrite run_inference_run.
  destruct (shape_mismatch _); simpl; eexists; (split; [done |]);
    repeat constructor; done.
Qed.

Lemma appends_save_each (d : bool) (flags : list bool) (fmt : string) (q : Z)
    (images : list image) :
  (∀ path img quality, P (save path img quality)) →
  ∀ i acc, appends P (save_each d flags fmt q i images acc).
Proof.
  intros HP. induction images as [|img images IH]; intros i acc; simpl.
  - apply appends_ret.
  - apply appends_bind.
    + destruct d; [apply appends_ret | apply appends_index].
    + intros [|]; [apply IH |].
      apply appends_bind; [by apply appends_emit | intros _; apply IH].
Qed.

End appends.

(** X26: whatever else happens in a request, the calls it makes come after
    those made before, and every inference call among them is made on the
    pipeline chosen by the input image, with [num_outputs] copies of the
    prompt cut to at most 75 words, the width and height of the table for
    the aspect ratio, and the given seed (or the random one when none is
    given). *)
Theorem predict_runs_the_pipeline_on_the_truncated_prompt (w : World)
    (inp : Inputs) (st : Predictor) :
  ∃ new,
    calls (predict w inp st).2 = calls st ++ new
    ∧ ∀ p args, run p args ∈ new →
        p = pipe_of inp
        ∧ arg_prompt args
          = replicate (Z.to_nat (num_outputs inp)) (truncate_prompt (prompt inp) 75)
        ∧ Forall (λ s, length (PyStr.split s) ≤ 75) (arg_prompt args)
        ∧ ASPECT_RATIOS !! aspect_ratio inp = Some (arg_width args, arg_height args)
        ∧ arg_seed args = default (urandom w) (seed inp).
Proof.
  set (P := λ c : call, ∀ p args, c = run p args →
        p = pipe_of inp
        ∧ arg_prompt args
          = replicate (Z.to_nat (num_outputs inp)) (truncate_prompt (prompt inp) 75)
        ∧ Forall (λ s, length (PyStr.split s) ≤ 75) (arg_prompt args)
        ∧ ASPECT_RATIOS !! aspect_ratio inp = Some (arg_width args, arg_height args)
        ∧ arg_seed args = default (urandom w) (seed inp)).
  assert (Hwords : length (PyStr.split (truncate_prompt (prompt inp) 75)) ≤ 75).
  { change 75%Z with (Z.of_nat 75). rewrite split_truncate_prompt.
    destruct (Nat.leb_spec (length (PyStr.split (prompt inp))) 75); [done |].
    rewrite length_take. lia. }
  assert (Hnorun : ∀ c, is_run c = false → P c).
  { intros c Hc p args ->. done. }
  assert (Hrest : ∀ width height init,
    ASPECT_RATIOS !! aspect_ratio inp = Some (width, height) →
    appends P
      (apply_loras w (pipe_of inp) (hf_loras inp) (lora_scales inp) ≫= λ jak,
         emit (to_cuda (pipe_of inp));;
         run_inference w (pipe_of inp)
           {| arg_prompt :=
                replicate (Z.to_nat (num_outputs inp)) (truncate_prompt (prompt inp) 75);
              arg_guidance_scale := guidance_scale inp;
              arg_seed := default (urandom w) (seed inp);
              arg_num_inference_steps := num_inference_steps inp;
              arg_width := width;
              arg_height := height;
              arg_image := init;
              arg_strength := match init with
                              | Some _ => Some (prompt_strength inp)
                              | None => None
                              end;
              arg_joint_attention_kwargs := jak |})).
  { intros width height init Har. apply appends_bind.
    - apply appends_apply_loras. intros c Hc. apply Hnorun. by destruct c.
    - intros jak. apply appends_bind; [by apply appends_emit, Hnorun |].
      intros _. apply appends_run_inference; [| by apply Hnorun].
      intros p args [= <- <-]. simpl. repeat split; try done.
      by apply Forall_replicate. }
  assert (Hgen : appends P (generate w inp)).
  { intros st0. unfold generate. rewrite bind_run.
    unfold aspect_ratio_to_width_height.
    destruct (ASPECT_RATIOS !! aspect_ratio inp) as [[width height]|] eqn:Har;
      simpl; [| exists []; by rewrite List.app_nil_r].
    rewrite bind_run. pose proof (Hrest width height) as Hr.
    unfold pipe_of in Hr.
    destruct (input_image inp) as [path|].
    - rewrite bind_run. simpl lift.
      destruct (get_image w path) as [t|e];
        [| exists []; by rewrite List.app_nil_r].
      by apply (Hr (Some t)).
    - by apply (Hr None). }
  assert (H : appends P (predict w inp)).
  { unfold predict. apply appends_bind; [exact Hgen |].
    intros images. unfold save_outputs. apply appends_bind.
    - apply appends_save_each. intros path img q. by apply Hnorun.
    - intros paths. destruct (_ =? _)%nat; [apply appends_raise | apply appends_ret]. }
  destruct (H st) as (new & Hnew & HP). exists new. split; [done |].
  intros p args Hin. rewrite Forall_forall in HP. by apply (HP _ Hin).
Qed.
